(** * The bounded Sieve of Eratosthenes of [jpamb/timer.c]

    A shallow embedding of [sieve_of_eratosthenes] (the C function the
    specification calls [find_nth_prime]) and of the binding [sieve] that
    exports it to Python, the properties of the function that the
    specification states, and further properties of the code.

    - C [int] values are mathematical integers with the 32-bit two's
      complement wrap-around written out ([wrap]).
    - The [calloc]'ed block is a list of cells.  A load or a store whose
      index is outside the block is undefined behaviour in C.  A store
      outside the block always ends the run with [Undef]; for a load the
      environment decides ([stray]): either the run ends with [Undef]
      (the reading of the C standard) or the load yields whatever byte
      happens to live there.
    - The two loops are fuelled fixpoints; running out of fuel is the
      separate result [NoFuel], and termination is proved, not assumed.
    - Every run also produces the list of its observable events (the
      allocation, each load and store, the messages on stderr, the
      release of the block).
    - The bound [ceil(n * log(n) + n * log(log(n)))] is taken over the real
      numbers: the C code evaluates it in double precision, which the
      embedding idealises.  Its values at 2 and 3, and the fact that it
      reaches the [n]-th prime for every [n] from 4 to 10000, are proved
      from certified rational bounds of [exp] and a sieve run on a list of
      flags. *)

From Stdlib Require Import String Ascii.
From Stdlib Require Import ZArith List Lia Bool Znumtheory.
From Stdlib Require Import Reals Lra.
Import ListNotations.
Open Scope Z_scope.

(** ** Machine integers *)

Definition INT_MIN : Z := - 2 ^ 31.
Definition INT_MAX : Z := 2 ^ 31 - 1.

(** Result of an [int] operation: reduction into [INT_MIN .. INT_MAX]. *)
Definition wrap (z : Z) : Z := (z + 2 ^ 31) mod 2 ^ 32 - 2 ^ 31.

(** Conversion of an [int] to [size_t] (64 bits), as at the call of
    [calloc]. *)
Definition to_size_t (z : Z) : Z := z mod 2 ^ 64.

(** ** Events, undefined behaviour, results *)

(** [EvStderrLimit limit] is the first [fprintf], of [limit] in the format
    [limit = %d] and a line feed; [EvStderr msg] is a fixed text. *)
Inductive event : Type :=
| EvCalloc (nmemb size : Z)
| EvLoad (idx : Z)
| EvStore (idx v : Z)
| EvFree
| EvStderrLimit (limit : Z)
| EvStderr (msg : string).

Inductive ub : Type :=
| OutOfBounds (idx : Z)
| BadConversion.

Inductive res (A : Type) : Type :=
| Val (a : A)
| Undef (u : ub)
| NoFuel.
Arguments Val {A} a.
Arguments Undef {A} u.
Arguments NoFuel {A}.

(** How a call ends when it ends in a defined way: [return v] or
    [exit(status)]. *)
Inductive finish : Type :=
| Return (v : Z)
| Exit (status : Z).

(** The text of the second [fprintf], with its line feed. *)
Definition alloc_failed_msg : string :=
  ("Memory allocation failed." ++ String (ascii_of_nat 10) EmptyString)%string.

(** The edge through which the scan loop is left. *)
Inductive scan_end : Type :=
| Break
| Exhausted.

(** ** The block of cells *)

Fixpoint set_nth (k : nat) (v : Z) (l : list Z) : list Z :=
  match l, k with
  | [], _ => []
  | _ :: t, O => v :: t
  | x :: t, S k' => x :: set_nth k' v t
  end.

Definition in_block (buf : list Z) (idx : Z) : bool :=
  (0 <=? idx) && (idx <? Z.of_nat (length buf)).

Definition store (buf : list Z) (idx v : Z) : option (list Z) :=
  if in_block buf idx then Some (set_nth (Z.to_nat idx) v buf) else None.

Section Machine.

(** Whether the allocator grants a request of that many bytes. *)
Variable heap_grants : Z -> bool.

(** What a load outside the block observes: [None] when the access traps,
    [Some b] when it yields the byte [b] found at that address. *)
Variable stray : Z -> option Z.

Definition calloc (nmemb size : Z) : option (list Z) :=
  let bytes := to_size_t nmemb * to_size_t size in
  if (bytes <? 2 ^ 64) && heap_grants bytes
  then Some (repeat 0 (Z.to_nat bytes))
  else None.

Definition load (buf : list Z) (idx : Z) : option Z :=
  if in_block buf idx then Some (nth (Z.to_nat idx) buf 0) else stray idx.

(** Line 22: [for (int j = i * 2; j <= limit; j += i) is_prime[j] = 1;]
    entered with [j] already set to [i * 2]. *)
Fixpoint mark_multiples (fuel : nat) (limit i j : Z) (is_prime : list Z)
  : list event * res (list Z) :=
  match fuel with
  | O => ([], NoFuel)
  | S fuel' =>
      if j <=? limit then
        match store is_prime j 1 with
        | None => ([EvStore j 1], Undef (OutOfBounds j))
        | Some is_prime' =>
            let (t, r) := mark_multiples fuel' limit i (wrap (j + i)) is_prime' in
            (EvStore j 1 :: t, r)
        end
      else ([], Val is_prime)
  end.

(** Lines 19-24: the scan loop, entered with [count] and [i] set.  The
    result is the exit edge and the value of [i] there.  In
    [if (count++ == n) break;] the comparison is on [count] before the
    increment, and after the [break] the variable is not read again. *)
Fixpoint scan (fuel : nat) (n limit count i : Z) (is_prime : list Z)
  : list event * res (scan_end * Z) :=
  match fuel with
  | O => ([], NoFuel)
  | S fuel' =>
      if i <=? wrap (limit + 1) then
        match load is_prime i with
        | None => ([EvLoad i], Undef (OutOfBounds i))
        | Some b =>
            if b =? 0 then
              if count =? n then ([EvLoad i], Val (Break, i))
              else
                match mark_multiples fuel' limit i (wrap (i * 2)) is_prime with
                | (t, Val is_prime') =>
                    let (t', r) :=
                      scan fuel' n limit (wrap (count + 1)) (wrap (i + 1)) is_prime' in
                    (EvLoad i :: t ++ t', r)
                | (t, Undef u) => (EvLoad i :: t, Undef u)
                | (t, NoFuel) => (EvLoad i :: t, NoFuel)
                end
            else
              let (t', r) := scan fuel' n limit count (wrap (i + 1)) is_prime in
              (EvLoad i :: t', r)
        end
      else ([], Val (Exhausted, i))
  end.

(** Lines 10-27: everything after [limit] has been computed.  Through
    either edge of the loop the block is released and [i] is returned. *)
Definition sieve_body (fuel : nat) (n limit : Z) : list event * res finish :=
  let nmemb := wrap (limit + 1) in
  match calloc nmemb 1 with
  | None =>
      ([EvCalloc nmemb 1; EvStderrLimit limit; EvStderr alloc_failed_msg],
       Val (Exit 1))
  | Some is_prime =>
      match scan fuel n limit 1 2 is_prime with
      | (t, Val (_, i)) => (EvCalloc nmemb 1 :: t ++ [EvFree], Val (Return i))
      | (t, Undef u) => (EvCalloc nmemb 1 :: t, Undef u)
      | (t, NoFuel) => (EvCalloc nmemb 1 :: t, NoFuel)
      end
  end.

End Machine.

(** ** The bound estimate (line 9) *)

(** [ceil] of a real number, as an integer. *)
Definition ceil (x : R) : Z := - Int_part (- x).

(** [ceil(n * log(n) + n * log(log(n)))] *)
Definition bound_estimate (n : Z) : Z :=
  ceil (IZR n * ln (IZR n) + IZR n * ln (ln (IZR n))).

(** Conversion of the (integral) double to [int].  When no [int] has the
    value, C leaves the conversion undefined, and the embedding stops the
    run there ([BadConversion]) rather than fix one outcome: what a given
    build then does (an x86 build yields [INT_MIN], asks [calloc] for
    [2 ^ 64 - 2147483647] bytes and takes the [exit] path) is not
    modelled. *)
Definition double_to_int (z : Z) : option Z :=
  if (INT_MIN <=? z) && (z <=? INT_MAX) then Some z else None.

(** ** The function *)

Definition sieve_of_eratosthenes (heap_grants : Z -> bool) (stray : Z -> option Z)
    (fuel : nat) (n : Z) : list event * res finish :=
  if n <=? 1 then ([], Val (Return 2))
  else
    match double_to_int (bound_estimate n) with
    | None => ([], Undef BadConversion)
    | Some limit => sieve_body heap_grants stray fuel n limit
    end.

Definition always (_ : Z) : bool := true.
Definition never (_ : Z) : bool := false.
Definition trap (_ : Z) : option Z := None.


(** ** Reference notions: primes and their ranks *)

(** [p] has no divisor other than 1 and itself. *)
Definition prime_number (p : Z) : Prop :=
  2 <= p /\ forall d, 1 <= d -> (d | p) -> d = 1 \/ d = p.

(** The candidates [2, 3, ..., p - 1] for a proper divisor of [p]. *)
Definition candidates (p : Z) : list Z :=
  map Z.of_nat (seq 2 (Z.to_nat p - 2)).

(** Trial division. *)
Definition primeb (p : Z) : bool :=
  (2 <=? p) && forallb (fun d => negb (p mod d =? 0)) (candidates p).

(** Number of primes among [1 .. k]. *)
Fixpoint count_primes (k : nat) : Z :=
  match k with
  | O => 0
  | S k' => count_primes k' + (if primeb (Z.of_nat k) then 1 else 0)
  end.

(** The prime-counting function: number of primes [<= m]. *)
Definition pi (m : Z) : Z := count_primes (Z.to_nat m).

(** [p] is the [n]-th prime in ascending order, counting from 1. *)
Definition nth_prime_is (n p : Z) : Prop := prime_number p /\ pi p = n.

(** [k] has been struck by the time the scan stands at [i]: it is a proper
    multiple of a prime below [i]. *)
Definition struck (i k : Z) : Prop :=
  exists p m, prime_number p /\ p < i /\ 2 <= m /\ k = m * p.

(** The state of the scan at the head of the loop. *)
Record scan_inv (n limit count i : Z) (buf : list Z) : Prop := {
  inv_i : 2 <= i <= limit + 1;
  inv_len : Z.of_nat (length buf) = limit + 1;
  inv_count : count = 1 + pi (i - 1);
  inv_rank : pi (i - 1) < n;
  inv_sound : forall k, 0 <= k <= limit -> nth (Z.to_nat k) buf 0 <> 0 -> struck i k;
  inv_complete : forall k, 0 <= k <= limit -> struck i k -> nth (Z.to_nat k) buf 0 <> 0
}.

(** What the scan does once it stands at [limit + 1], the cell after the
    block, having found [pi limit] primes: the byte it loads there is not
    part of the block. *)
Definition past_end (stray : Z -> option Z) (n limit : Z) : res (scan_end * Z) :=
  match stray (limit + 1) with
  | None => Undef (OutOfBounds (limit + 1))
  | Some b =>
      if (b =? 0) && (1 + pi limit =? n) then Val (Break, limit + 1)
      else Val (Exhausted, limit + 2)
  end.

(** ** Checking that the estimate reaches the [n]-th prime

    The range of [n] is cut into segments [a .. b].  For each segment a
    certificate gives a number [L] that the estimate at [a], and so at every
    [n >= a], is proved to reach, and [b] is at most the number of primes up
    to [L]. *)

(** The primes below 340. *)
Definition small_primes : list Z :=
  [2; 3; 5; 7; 11; 13; 17; 19; 23; 29; 31; 37; 41; 43; 47; 53; 59; 61; 67;
   71; 73; 79; 83; 89; 97; 101; 103; 107; 109; 113; 127; 131; 137; 139; 149;
   151; 157; 163; 167; 173; 179; 181; 191; 193; 197; 199; 211; 223; 227;
   229; 233; 239; 241; 251; 257; 263; 269; 271; 277; 281; 283; 293; 307;
   311; 313; 317; 331; 337].

(** The numbers strictly between [lo] and [hi]. *)
Definition between (lo hi : Z) : list Z :=
  map (fun k => lo + 1 + Z.of_nat k) (seq 0 (Z.to_nat (hi - lo - 1))).

(** [qs] increases from above [lo] and skips no prime. *)
Fixpoint skips_no_prime (lo : Z) (qs : list Z) : bool :=
  match qs with
  | [] => true
  | q :: qs' =>
      (lo <? q) && forallb (fun d => negb (primeb d)) (between lo q) &&
      skips_no_prime q qs'
  end.

(** Clear the flag at distance [k] and then every [period + 1]-th one. *)
Fixpoint strike (period k : nat) (l : list bool) : list bool :=
  match l with
  | [] => []
  | b :: t =>
      match k with
      | O => false :: strike period period t
      | S k' => b :: strike period k' t
      end
  end.

(** The flags stand for 2, 3, 4, ...: strike the proper multiples of each
    number of [qs]. *)
Fixpoint strike_all (qs : list Z) (l : list bool) : list bool :=
  match qs with
  | [] => l
  | q :: qs' => strike_all qs' (strike (Z.to_nat (q - 1)) (Z.to_nat (2 * q - 2)) l)
  end.

Definition flags (len : nat) : list bool := strike_all small_primes (repeat true len).

(** [acc] plus the number of flags set among the first [len], and the rest
    of the flags. *)
Fixpoint count_flags (len : nat) (fl : list bool) (acc : Z) : Z * list bool :=
  match len with
  | O => (acc, fl)
  | S len' =>
      match fl with
      | [] => (acc, [])
      | b :: fl' => count_flags len' fl' (if b then acc + 1 else acc)
      end
  end.

(** Every flag that is set stands for a prime, the first flag standing for
    [cur + 1]. *)
Definition flags_sound (cur : Z) (fl : list bool) : Prop :=
  forall k, nth k fl false = true -> prime_number (cur + 1 + Z.of_nat k).

(** Fixed-point upper bounds of [exp]: the integer [U] stands for
    [U / 2^32]. *)
Definition FRAC : Z := 2 ^ 32.

(** One squaring, rounded up. *)
Definition square_up (U : Z) : Z := (U * U + FRAC - 1) / FRAC.

Fixpoint square_up_iter (m : nat) (U : Z) : Z :=
  match m with
  | O => U
  | S m' => square_up_iter m' (square_up U)
  end.

(** An upper bound of [exp (num / den)]: [1 / (1 - x)] at
    [x = num / (den * 2^m)], squared [m] times. *)
Definition exp_ub (m : nat) (num den : Z) : Z :=
  let q := den * 2 ^ Z.of_nat m in
  square_up_iter m ((FRAC * q + (q - num) - 1) / (q - num)).

Definition SCALE : Z := 10 ^ 6.
Definition SQUARINGS : nat := 16.

(** [exp (c / SCALE) < num / den], checked on integers. *)
Definition exp_lt (c num den : Z) : bool :=
  (c <? SCALE * 2 ^ Z.of_nat SQUARINGS) &&
  (exp_ub SQUARINGS c SCALE * den <? num * FRAC).

(** [c1 / SCALE < ln a] and [c2 / SCALE < ln (a * c1 / SCALE)]. *)
Definition check_cert (a c1 c2 : Z) : bool :=
  (0 <? c1) && exp_lt c1 a 1 && exp_lt c2 (a * c1) SCALE.

(** A chain of segments [a .. b], each with the two logarithms of a
    certificate: the estimate at [a] is above [L = a * c2 / SCALE + 1], and
    at least [b] flags are set up to [L].  [fl] holds the flags from
    [cur + 1] on, [cnt] the number of flags set up to [cur]. *)
Fixpoint check_chain (cs : list (Z * Z * Z)) (a cur cnt : Z) (fl : list bool) : bool :=
  match cs with
  | [] => true
  | (b, c1, c2) :: cs' =>
      let L := a * c2 / SCALE + 1 in
      let (cnt', fl') := count_flags (Z.to_nat (L - cur)) fl cnt in
      check_cert a c1 c2 && (cur <=? L) && (a <=? b) && (b <=? cnt') &&
      check_chain cs' (b + 1) L cnt' fl'
  end.

Fixpoint chain_end (cs : list (Z * Z * Z)) (a : Z) : Z :=
  match cs with
  | [] => a - 1
  | (b, _, _) :: cs' => chain_end cs' (b + 1)
  end.

(** The segments from 4 to 10317, as [(b, c1, c2)]. *)
Definition chain : list (Z * Z * Z) :=
 [(4, 1386234, 1712825);
 (5, 1609377, 2085225);
 (6, 1791699, 2374863);
 (8, 1945850, 2611489);
 (9, 2197164, 2984272);
 (11, 2302525, 3136471);
 (13, 2484786, 3394973);
 (15, 2638937, 3609313);
 (18, 2772468, 3792086);
 (21, 2944318, 4024076);
 (24, 3090922, 4219271);
 (29, 3218755, 4387630);
 (34, 3401077, 4625049);
 (39, 3555228, 4823527);
 (46, 3688639, 4993897);
 (53, 3849907, 5197956);
 (61, 3988744, 5372220);
 (68, 4126894, 5544179);
 (77, 4233866, 5676742);
 (87, 4356468, 5827890);
 (99, 4477096, 5975831);
 (112, 4604930, 6131817);
 (127, 4727147, 6280229);
 (143, 4851790, 6430897);
 (161, 4969573, 6572667);
 (181, 5087356, 6713874);
 (203, 5203766, 6852909);
 (224, 5317879, 6988714);
 (251, 5415620, 7104907);
 (281, 5528949, 7238946);
 (312, 5641427, 7371564);
 (347, 5745723, 7494178);
 (383, 5851722, 7618458);
 (428, 5950162, 7733580);
 (476, 6060976, 7862367);
 (529, 6167036, 7985774);
 (590, 6272397, 8108075);
 (651, 6381336, 8234233);
 (720, 6479564, 8347737);
 (796, 6580159, 8463738);
 (880, 6680374, 8579068);
 (971, 6780577, 8694159);
 (1066, 6878875, 8806850);
 (1178, 6972126, 8913566);
 (1298, 7071941, 9027596);
 (1423, 7168870, 9138138);
 (1565, 7260745, 9242747);
 (1715, 7355799, 9350808);
 (1885, 7447271, 9454638);
 (2065, 7541733, 9561705);
 (2257, 7632889, 9664876);
 (2471, 7721754, 9765316);
 (2708, 7811822, 9867461);
 (2962, 7903374, 9970664);
 (3232, 7992997, 10071563);
 (3524, 8080205, 10169623);
 (3842, 8166675, 10266737);
 (4185, 8253048, 10363631);
 (4560, 8338540, 10459429);
 (4957, 8424337, 10555461);
 (5388, 8507797, 10648780);
 (5864, 8591155, 10741888);
 (6369, 8675797, 10836334);
 (6905, 8758394, 10928407);
 (7491, 8839185, 11018380);
 (8125, 8920631, 11108997);
 (8802, 9001864, 11198335);
 (9535, 9081887, 11287209);
 (10317, 9161869, 11375959)].

(** ** Reading the events *)

(** The block after the stores of a list of events, in order. *)
Fixpoint replay (t : list event) (buf : list Z) : list Z :=
  match t with
  | [] => buf
  | EvStore idx v :: t' =>
      replay t' (match store buf idx v with Some buf' => buf' | None => buf end)
  | _ :: t' => replay t' buf
  end.

(** The event touches the block only at a cell [0 .. limit]. *)
Definition within_block (limit : Z) (e : event) : Prop :=
  match e with
  | EvLoad idx | EvStore idx _ => 0 <= idx <= limit
  | _ => True
  end.

(** The call ends by reporting an error: the only such path of the function
    is [exit]. *)
Definition signals_error (r : res finish) : Prop :=
  exists status, r = Val (Exit status).

(** The cells loaded by a list of events, in order. *)
Fixpoint loads (t : list event) : list Z :=
  match t with
  | [] => []
  | EvLoad idx :: t' => idx :: loads t'
  | _ :: t' => loads t'
  end.

(** The [k] integers from [lo] on. *)
Fixpoint upfrom (lo : Z) (k : nat) : list Z :=
  match k with
  | O => []
  | S k' => lo :: upfrom (lo + 1) k'
  end.

(** ** The binding (lines 30-35)

    [sieve] is the function the Python module exports.  The three things it
    takes from the CPython library are variables of the section: the type of
    Python objects; what [PyArg_ParseTuple(args, "i", &i)] does to [i],
    which is [Some v] when it succeeds and stores the [int] [v], and [None]
    when it fails and leaves [i] as it was; and [PyLong_FromLong].  [i] is
    not initialised, so what it holds when parsing fails is one more
    argument, [i0].  The result of [PyArg_ParseTuple] is not looked at.  A
    call of [exit] inside [sieve_of_eratosthenes] ends the process, so the
    binding hands on every result but a return as it is. *)

Inductive py_finish (PyObject : Type) : Type :=
| PyReturn (o : PyObject)
| PyExit (status : Z).
Arguments PyReturn {PyObject} o.
Arguments PyExit {PyObject} status.

Section Binding.

Variable heap_grants : Z -> bool.
Variable stray : Z -> option Z.
Variable PyObject : Type.
Variable PyArg_ParseTuple_i : PyObject -> option Z.
Variable PyLong_FromLong : Z -> PyObject.

Definition sieve (fuel : nat) (i0 : Z) (self args : PyObject)
  : list event * res (py_finish PyObject) :=
  let i := match PyArg_ParseTuple_i args with Some v => v | None => i0 end in
  match sieve_of_eratosthenes heap_grants stray fuel i with
  | (t, Val (Return nth_prime)) => (t, Val (PyReturn (PyLong_FromLong nth_prime)))
  | (t, Val (Exit status)) => (t, Val (PyExit status))
  | (t, Undef u) => (t, Undef u)
  | (t, NoFuel) => (t, NoFuel)
  end.

End Binding.

(** * Properties *)

(** ** Arithmetic of [wrap] *)

Example wrap_int_max_plus_1 : wrap (INT_MAX + 1) = INT_MIN.
Proof. reflexivity. Qed.

Example wrap_double_2_pow_30 : wrap (2 ^ 30 * 2) = INT_MIN.
Proof. reflexivity. Qed.

Lemma wrap_small (z : Z) : INT_MIN <= z <= INT_MAX -> wrap z = z.
Proof.
  unfold INT_MIN, INT_MAX, wrap. intros H.
  rewrite Z.mod_small by lia. lia.
Qed.

Lemma wrap_range (z : Z) : INT_MIN <= wrap z <= INT_MAX.
Proof.
  unfold INT_MIN, INT_MAX, wrap.
  assert (H := Z.mod_pos_bound (z + 2 ^ 31) (2 ^ 32)). lia.
Qed.

Lemma wrap_over (z : Z) : INT_MAX < z <= INT_MAX + 2 ^ 31 -> wrap z < 0.
Proof.
  unfold INT_MAX, wrap. intros H.
  replace (z + 2 ^ 31) with ((z - 2 ^ 31) + 1 * 2 ^ 32) by lia.
  rewrite Z.mod_add by lia. rewrite Z.mod_small by lia. lia.
Qed.

(** ** Primes *)

Lemma candidates_spec (p d : Z) : In d (candidates p) <-> 2 <= d < p.
Proof.
  unfold candidates. rewrite in_map_iff. split.
  - intros (k & <- & Hk). apply in_seq in Hk. lia.
  - intros H. exists (Z.to_nat d). split; [lia|]. apply in_seq. lia.
Qed.

Lemma primeb_spec (p : Z) : primeb p = true <-> prime_number p.
Proof.
  unfold primeb, prime_number. rewrite andb_true_iff, Z.leb_le, forallb_forall.
  split.
  - intros [Hp H]. split; [assumption|]. intros d Hd Hdiv.
    assert (Hle : d <= p) by (apply Z.divide_pos_le; [lia | assumption]).
    destruct (Z.eq_dec d 1) as [|H1]; [now left|].
    destruct (Z.eq_dec d p) as [|H2]; [now right|].
    exfalso. assert (Hin : In d (candidates p)) by (apply candidates_spec; lia).
    apply H in Hin. apply negb_true_iff, Z.eqb_neq in Hin.
    apply Hin, Z.mod_divide; [lia | assumption].
  - intros [Hp H]. split; [assumption|]. intros d Hin.
    apply candidates_spec in Hin. apply negb_true_iff, Z.eqb_neq. intros Hmod.
    apply Z.mod_divide in Hmod; [|lia].
    destruct (H d) as [|]; [lia | assumption | lia | lia].
Qed.

Lemma prime_number_dec (p : Z) : {prime_number p} + {~ prime_number p}.
Proof.
  destruct (primeb p) eqn:E.
  - left. now apply primeb_spec.
  - right. intros H. apply primeb_spec in H. congruence.
Qed.

(** A number that is not prime has a proper divisor. *)
Lemma proper_divisor (k : Z) :
  2 <= k -> ~ prime_number k -> exists d, 2 <= d < k /\ (d | k).
Proof.
  intros Hk Hn.
  assert (E : primeb k = false).
  { destruct (primeb k) eqn:E; [|reflexivity]. apply primeb_spec in E. contradiction. }
  unfold primeb in E. apply andb_false_iff in E. destruct E as [E | E].
  - apply Z.leb_gt in E. lia.
  - assert (Hex : exists d, In d (candidates k) /\ k mod d = 0).
    { induction (candidates k) as [|a l IH]; [discriminate|].
      simpl in E. apply andb_false_iff in E. destruct E as [E | E].
      - exists a. split; [now left|]. apply negb_false_iff, Z.eqb_eq in E. exact E.
      - destruct (IH E) as (d & Hd & Hm). exists d. split; [now right | exact Hm]. }
    destruct Hex as (d & Hd & Hm). apply candidates_spec in Hd.
    exists d. split; [exact Hd|]. apply Z.mod_divide; [lia | exact Hm].
Qed.

(** Every number from 2 on has a prime divisor. *)
Lemma prime_divisor (k : Z) :
  2 <= k -> exists p, prime_number p /\ (p | k).
Proof.
  assert (G : forall x, 0 <= x -> 2 <= x -> exists p, prime_number p /\ (p | x)).
  { clear k. intros x Hx. pattern x. apply Z_lt_induction; [|exact Hx].
    clear x Hx. intros k IH Hk.
    destruct (prime_number_dec k) as [Hp | Hn].
    - exists k. split; [assumption | apply Z.divide_refl].
    - destruct (proper_divisor k Hk Hn) as (d & Hd & Hdiv).
      destruct (IH d) as (p & Hp & Hpd); [lia | lia |].
      exists p. split; [assumption | eapply Z.divide_trans; eassumption]. }
  intros Hk. apply G; lia.
Qed.

(** A composite number is a proper multiple of a prime. *)
Lemma composite_struck (k : Z) :
  2 <= k -> ~ prime_number k -> struck k k.
Proof.
  intros Hk Hn. destruct (prime_divisor k Hk) as (p & Hp & m & Hm).
  assert (Hp2 : 2 <= p) by apply Hp.
  assert (Hne : p <> k) by (intros ->; contradiction).
  assert (H1 : 1 <= m) by nia.
  assert (Hm1 : m <> 1) by (intros ->; lia).
  exists p, m. split; [assumption|]. split; [nia|]. split; [lia | assumption].
Qed.

Lemma prime_not_struck (k : Z) : prime_number k -> ~ struck k k.
Proof.
  intros [Hk Hd] (p & m & [Hp _] & Hlt & Hm & E).
  destruct (Hd p) as [|]; [lia | exists m; exact E | lia | lia].
Qed.

Lemma struck_mono (i i' k : Z) : i <= i' -> struck i k -> struck i' k.
Proof.
  intros Hle (p & m & Hp & Hlt & Hm & E).
  exists p, m. split; [assumption|]. split; [lia|]. split; assumption.
Qed.

Lemma struck_not_prime (i k : Z) : struck i k -> ~ prime_number k.
Proof.
  intros (p & m & [Hp _] & Hlt & Hm & E) [Hk Hd].
  destruct (Hd p) as [|]; [lia | exists m; exact E | lia | nia].
Qed.

(** Stepping the scan over a number that is not prime strikes nothing new. *)
Lemma struck_step_composite (i k : Z) :
  ~ prime_number i -> struck (i + 1) k -> struck i k.
Proof.
  intros Hn (p & m & Hp & Hlt & Hm & E).
  assert (Hne : p <> i) by (intros ->; contradiction).
  exists p, m. split; [assumption|]. split; [lia|]. split; assumption.
Qed.

(** Stepping it over a prime strikes exactly the proper multiples of it. *)
Lemma struck_step_prime (i k : Z) :
  struck (i + 1) k -> struck i k \/ exists m, 2 <= m /\ k = m * i.
Proof.
  intros (p & m & Hp & Hlt & Hm & E).
  destruct (Z.eq_dec p i) as [-> | Hne].
  - right. exists m. split; assumption.
  - left. exists p, m. split; [assumption|]. split; [lia|]. split; assumption.
Qed.

(** ** The prime-counting function *)

Example pi_13 : pi 13 = 6.
Proof. reflexivity. Qed.

Example pi_541 : pi 541 = 100.
Proof. vm_compute. reflexivity. Qed.

Lemma pi_succ (m : Z) :
  0 <= m -> pi (m + 1) = pi m + (if primeb (m + 1) then 1 else 0).
Proof.
  intros Hm. unfold pi.
  replace (Z.to_nat (m + 1)) with (S (Z.to_nat m)) by lia.
  cbn [count_primes].
  replace (Z.of_nat (S (Z.to_nat m))) with (m + 1) by lia. reflexivity.
Qed.

Lemma pi_nonneg (m : Z) : 0 <= pi m.
Proof.
  unfold pi. induction (Z.to_nat m) as [|k IH]; [reflexivity|].
  cbn [count_primes]. destruct (primeb _); lia.
Qed.

Lemma pi_mono (a b : Z) : a <= b -> pi a <= pi b.
Proof.
  intros Hab. unfold pi.
  assert (H : (Z.to_nat a <= Z.to_nat b)%nat) by lia.
  induction H as [|k Hk IH]; [lia|].
  cbn [count_primes]. destruct (primeb _); lia.
Qed.

Lemma pi_le (m : Z) : 0 <= m -> pi m <= m.
Proof.
  intros Hm. unfold pi. 
  assert (H : forall k, count_primes k <= Z.of_nat k).
  { induction k as [|k IH]; [reflexivity|].
    cbn [count_primes]. destruct (primeb _); lia. }
  specialize (H (Z.to_nat m)). lia.
Qed.

Lemma pi_1 : pi 1 = 0.
Proof. reflexivity. Qed.

(** The rank determines the prime. *)
Lemma nth_prime_unique (n p q : Z) :
  nth_prime_is n p -> nth_prime_is n q -> p = q.
Proof.
  assert (H : forall n p q, nth_prime_is n p -> nth_prime_is n q -> p <= q).
  { clear. intros n p q [Hp Ep] [Hq Eq].
    destruct (Z_le_gt_dec p q) as [|Hgt]; [assumption|]. exfalso.
    assert (Hm : pi q <= pi (p - 1)) by (apply pi_mono; lia).
    assert (H2 : 2 <= p) by apply Hp.
    assert (Hs := pi_succ (p - 1) ltac:(lia)).
    replace (p - 1 + 1) with p in Hs by lia.
    apply primeb_spec in Hp. rewrite Hp in Hs. lia. }
  intros Hp Hq. apply Z.le_antisymm; eapply H; eassumption.
Qed.

(** Ranks grow strictly with the primes. *)
Lemma nth_prime_increasing (n n' p q : Z) :
  nth_prime_is n p -> nth_prime_is n' q -> n < n' -> p < q.
Proof.
  intros [Hp Ep] [Hq Eq] Hlt.
  destruct (Z_lt_ge_dec p q) as [|Hge]; [assumption|]. exfalso.
  assert (pi q <= pi p) by (apply pi_mono; lia). lia.
Qed.

(** ** The sieve on flags *)

Lemma between_spec (lo hi d : Z) : In d (between lo hi) <-> lo < d < hi.
Proof.
  unfold between. rewrite in_map_iff. split.
  - intros (k & <- & Hk). apply in_seq in Hk. lia.
  - intros H. exists (Z.to_nat (d - lo - 1)). split; [lia|]. apply in_seq. lia.
Qed.

Lemma strike_keeps_clear (period k j : nat) (l : list bool) :
  nth j (strike period k l) false = true -> nth j l false = true.
Proof.
  revert k j. induction l as [|b t IH]; intros k j; [trivial|].
  destruct k as [|k]; destruct j as [|j]; simpl; try discriminate; try trivial; apply IH.
Qed.

Lemma strike_hits (period k m : nat) (l : list bool) :
  nth (k + m * S period) (strike period k l) false = false.
Proof.
  revert k m. induction l as [|b t IH]; intros k m.
  - simpl. now destruct (k + m * S period)%nat.
  - destruct k as [|k]; simpl.
    + destruct m as [|m]; [reflexivity|].
      replace (S m * S period)%nat with (S (period + m * S period)) by lia.
      apply IH.
    + apply IH.
Qed.

Lemma strike_all_keeps_clear (qs : list Z) (j : nat) (l : list bool) :
  nth j (strike_all qs l) false = true -> nth j l false = true.
Proof.
  revert l. induction qs as [|q qs IH]; intros l H; [exact H|].
  simpl in H. apply IH in H. eapply strike_keeps_clear. exact H.
Qed.

(** The flag of a proper multiple of a number of the list ends up clear. *)
Lemma strike_all_hits (qs : list Z) (q m : Z) (l : list bool) :
  In q qs -> 1 <= q -> 2 <= m ->
  nth (Z.to_nat (m * q - 2)) (strike_all qs l) false = false.
Proof.
  revert l. induction qs as [|q' qs IH]; intros l Hin Hq Hm; [contradiction|].
  simpl. destruct (Z.eq_dec q' q) as [-> | Hne].
  - destruct (nth _ (strike_all qs _) false) eqn:E; [|reflexivity].
    apply strike_all_keeps_clear in E.
    replace (Z.to_nat (m * q - 2))
      with (Z.to_nat (2 * q - 2) + Z.to_nat (m - 2) * S (Z.to_nat (q - 1)))%nat in E
      by nia.
    now rewrite strike_hits in E.
  - apply IH; [| exact Hq | exact Hm]. destruct Hin as [E | Hin]; [contradiction | exact Hin].
Qed.

(** A list that skips no prime holds every prime up to any of its numbers. *)
Lemma skips_no_prime_in (qs : list Z) (lo p r : Z) :
  skips_no_prime lo qs = true -> prime_number p -> lo < p -> In r qs -> p <= r ->
  In p qs.
Proof.
  revert lo. induction qs as [|q qs IH]; intros lo Hok Hp Hlo Hr Hpr; [contradiction|].
  cbn [skips_no_prime] in Hok.
  apply andb_true_iff in Hok. destruct Hok as [Hok Hrest].
  apply andb_true_iff in Hok. destruct Hok as [Hlt Hgap].
  apply Z.ltb_lt in Hlt. rewrite forallb_forall in Hgap.
  destruct (Z.eq_dec p q) as [-> | Hne]; [now left|]. right.
  destruct (Z_lt_ge_dec p q) as [Hpq | Hpq].
  - exfalso. assert (Hin : In p (between lo q)) by (apply between_spec; lia).
    apply Hgap in Hin. apply primeb_spec in Hp. rewrite Hp in Hin. discriminate.
  - destruct Hr as [-> | Hr]; [lia|].
    apply (IH q Hrest Hp); [lia | exact Hr | exact Hpr].
Qed.

Lemma small_primes_skip_no_prime : skips_no_prime 1 small_primes = true.
Proof. vm_compute. reflexivity. Qed.

Lemma small_primes_reach_337 : In 337 small_primes.
Proof. vm_compute. tauto. Qed.

(** A composite number is a multiple of a prime that is at most its square
    root. *)
Lemma composite_small_factor (x : Z) :
  2 <= x -> ~ prime_number x ->
  exists p m, prime_number p /\ 2 <= m /\ x = m * p /\ p * p <= x.
Proof.
  intros Hx Hn.
  destruct (proper_divisor x Hx Hn) as (d & Hd & e & He).
  assert (He0 : 0 < e) by nia.
  assert (He2 : 2 <= e) by (destruct (Z.eq_dec e 1) as [-> |]; lia).
  assert (Hsmall : forall u v, 2 <= u -> u <= v -> x = v * u ->
            exists p m, prime_number p /\ 2 <= m /\ x = m * p /\ p * p <= x).
  { intros u v Hu Huv E.
    destruct (prime_divisor u Hu) as (p & Hp & w & Hw).
    assert (Hp2 : 2 <= p) by apply Hp.
    assert (Hw1 : 1 <= w) by nia.
    exists p, (v * w). split; [exact Hp|]. split; [nia|]. split; [nia|].
    assert (p <= u) by nia.
    assert (p * p <= u * v) by (apply Z.mul_le_mono_nonneg; lia). nia. }
  destruct (Z_le_gt_dec d e) as [Hle | Hgt].
  - apply (Hsmall d e); [lia | exact Hle | exact He].
  - apply (Hsmall e d); [lia | lia | lia].
Qed.

(** The flags left set by the sieve stand for primes. *)
Lemma flags_are_sound (len : nat) :
  Z.of_nat len + 2 <= 338 * 338 -> flags_sound 1 (flags len).
Proof.
  intros Hlen k Hk. set (x := 1 + 1 + Z.of_nat k).
  assert (Hklen : (k < len)%nat).
  { destruct (Nat.lt_ge_cases k len) as [|Hge]; [assumption|]. exfalso.
    apply strike_all_keeps_clear in Hk.
    rewrite nth_overflow in Hk by (rewrite repeat_length; exact Hge). discriminate. }
  destruct (prime_number_dec x) as [Hp | Hn]; [exact Hp|]. exfalso.
  destruct (composite_small_factor x ltac:(lia) Hn) as (p & m & Hp & Hm & E & Hsq).
  assert (Hp2 : 2 <= p) by apply Hp.
  assert (Hin : In p small_primes).
  { apply (skips_no_prime_in small_primes 1 p 337 small_primes_skip_no_prime Hp);
      [lia | exact small_primes_reach_337 | nia]. }
  assert (Hhit := strike_all_hits small_primes p m (repeat true len) Hin ltac:(lia) Hm).
  replace (Z.to_nat (m * p - 2)) with k in Hhit by lia.
  unfold flags in Hk. rewrite Hhit in Hk. discriminate.
Qed.

(** Counting flags never overcounts the primes. *)
Lemma count_flags_sound (len : nat) (fl : list bool) (cur acc : Z) :
  flags_sound cur fl -> 0 <= cur -> acc <= pi cur ->
  fst (count_flags len fl acc) <= pi (cur + Z.of_nat len) /\
  flags_sound (cur + Z.of_nat len) (snd (count_flags len fl acc)).
Proof.
  revert fl cur acc. induction len as [|len IH]; intros fl cur acc Hs Hcur Hacc.
  - simpl. rewrite Z.add_0_r. split; assumption.
  - destruct fl as [|b fl]; cbn [count_flags].
    + split.
      * simpl. apply Z.le_trans with (pi cur); [exact Hacc | apply pi_mono; lia].
      * intros k Hk. simpl in Hk. destruct k; discriminate.
    + replace (cur + Z.of_nat (S len)) with (cur + 1 + Z.of_nat len) by lia.
      apply IH; [| lia |].
      * intros k Hk. specialize (Hs (S k) Hk).
        replace (cur + 1 + 1 + Z.of_nat k) with (cur + 1 + Z.of_nat (S k)) by lia.
        exact Hs.
      * rewrite pi_succ by lia. destruct b.
        -- specialize (Hs O eq_refl). rewrite Z.add_0_r in Hs.
           apply primeb_spec in Hs. rewrite Hs. lia.
        -- destruct (primeb (cur + 1)); lia.
Qed.

(** ** The block *)

Lemma set_nth_length (k : nat) (v : Z) (l : list Z) :
  length (set_nth k v l) = length l.
Proof.
  revert k. induction l as [|x l IH]; intros [|k]; simpl; try reflexivity.
  now rewrite IH.
Qed.

Lemma nth_set_nth_eq (k : nat) (v : Z) (l : list Z) :
  (k < length l)%nat -> nth k (set_nth k v l) 0 = v.
Proof.
  revert k. induction l as [|x l IH]; intros [|k] Hk; simpl in *; try lia.
  apply IH. lia.
Qed.

Lemma nth_set_nth_ne (k k' : nat) (v : Z) (l : list Z) :
  k <> k' -> nth k' (set_nth k v l) 0 = nth k' l 0.
Proof.
  revert k k'. induction l as [|x l IH]; intros [|k] [|k'] Hne; simpl; try reflexivity.
  - contradiction.
  - apply IH. congruence.
Qed.

Lemma in_block_spec (buf : list Z) (idx : Z) :
  in_block buf idx = true <-> 0 <= idx < Z.of_nat (length buf).
Proof.
  unfold in_block. rewrite andb_true_iff, Z.leb_le, Z.ltb_lt. tauto.
Qed.

Lemma store_some (buf : list Z) (idx v : Z) :
  0 <= idx < Z.of_nat (length buf) ->
  store buf idx v = Some (set_nth (Z.to_nat idx) v buf).
Proof.
  intros H. unfold store. apply in_block_spec in H. now rewrite H.
Qed.

Lemma store_inv (buf buf' : list Z) (idx v : Z) :
  store buf idx v = Some buf' ->
  0 <= idx < Z.of_nat (length buf) /\ buf' = set_nth (Z.to_nat idx) v buf.
Proof.
  unfold store. destruct (in_block buf idx) eqn:E; [|discriminate].
  intros [= <-]. apply in_block_spec in E. split; [assumption | reflexivity].
Qed.

Lemma store_none (buf : list Z) (idx v : Z) :
  ~ 0 <= idx < Z.of_nat (length buf) -> store buf idx v = None.
Proof.
  intros H. unfold store. destruct (in_block buf idx) eqn:E; [|reflexivity].
  apply in_block_spec in E. contradiction.
Qed.

Lemma load_inside (stray : Z -> option Z) (buf : list Z) (idx : Z) :
  0 <= idx < Z.of_nat (length buf) ->
  load stray buf idx = Some (nth (Z.to_nat idx) buf 0).
Proof.
  intros H. unfold load. apply in_block_spec in H. now rewrite H.
Qed.

Lemma load_outside (stray : Z -> option Z) (buf : list Z) (idx : Z) :
  ~ 0 <= idx < Z.of_nat (length buf) -> load stray buf idx = stray idx.
Proof.
  intros H. unfold load. destruct (in_block buf idx) eqn:E; [|reflexivity].
  apply in_block_spec in E. contradiction.
Qed.

Lemma calloc_inv (heap_grants : Z -> bool) (nmemb size : Z) (buf : list Z) :
  calloc heap_grants nmemb size = Some buf ->
  buf = repeat 0 (Z.to_nat (to_size_t nmemb * to_size_t size)) /\
  heap_grants (to_size_t nmemb * to_size_t size) = true.
Proof.
  unfold calloc. destruct (_ && _) eqn:E; [|discriminate].
  intros [= <-]. apply andb_true_iff in E. split; [reflexivity | apply E].
Qed.

Lemma calloc_zero (heap_grants : Z -> bool) (nmemb size : Z) (buf : list Z) (k : nat) :
  calloc heap_grants nmemb size = Some buf -> nth k buf 0 = 0.
Proof.
  intros H. apply calloc_inv in H. destruct H as [-> _].
  destruct (Nat.lt_ge_cases k (Z.to_nat (to_size_t nmemb * to_size_t size))) as [Hk | Hk].
  - apply nth_repeat_lt. exact Hk.
  - apply nth_overflow. rewrite repeat_length. exact Hk.
Qed.

(** The block of a call whose [limit + 1] does not wrap has cells
    [0 .. limit]. *)
Lemma calloc_length (heap_grants : Z -> bool) (limit : Z) (buf : list Z) :
  -1 <= limit < INT_MAX ->
  calloc heap_grants (wrap (limit + 1)) 1 = Some buf ->
  Z.of_nat (length buf) = limit + 1.
Proof.
  unfold INT_MAX. intros Hl H. apply calloc_inv in H. destruct H as [-> _].
  rewrite repeat_length, wrap_small by (unfold INT_MIN, INT_MAX; lia).
  unfold to_size_t. rewrite !Z.mod_small by lia. lia.
Qed.

(** ** The marking loop *)

Section Marking.

Variable stray : Z -> option Z.

(** Entered below the block, the loop stores outside it. *)
Lemma mark_multiples_below (fuel : nat) (limit i j : Z) (buf : list Z) :
  j < 0 <= limit ->
  snd (mark_multiples fuel limit i j buf) = NoFuel \/
  snd (mark_multiples fuel limit i j buf) = Undef (OutOfBounds j).
Proof.
  intros Hj. destruct fuel as [|fuel]; [now left|]. right. simpl.
  replace (j <=? limit) with true by (symmetry; apply Z.leb_le; lia).
  rewrite store_none by lia. reflexivity.
Qed.

(** When the loop completes, no [j] wrapped around, the block kept its
    size, and the cells that are set are the old ones and [j], [j + i],
    [j + 2 i], ... up to [limit]. *)
Lemma mark_multiples_val (fuel : nat) (limit i j : Z) (buf buf' : list Z) :
  1 <= i <= INT_MAX -> 0 <= limit <= INT_MAX -> INT_MIN <= j <= INT_MAX ->
  Z.of_nat (length buf) = limit + 1 ->
  snd (mark_multiples fuel limit i j buf) = Val buf' ->
  Z.of_nat (length buf') = limit + 1 /\
  forall k, 0 <= k <= limit ->
    (nth (Z.to_nat k) buf' 0 <> 0 <->
     nth (Z.to_nat k) buf 0 <> 0 \/ exists m, 0 <= m /\ k = j + m * i).
Proof.
  intros Hi Hl. revert j buf.
  induction fuel as [|fuel IH]; intros j buf Hj Hlen; simpl; [discriminate|].
  destruct (Z.leb_spec j limit) as [Hle | Hgt].
  - destruct (store buf j 1) as [buf1|] eqn:Es; [|discriminate].
    apply store_inv in Es. destruct Es as [Hin ->].
    destruct (mark_multiples fuel limit i (wrap (j + i)) _) as [t r] eqn:Er.
    simpl. intros ->.
    assert (Hr : snd (mark_multiples fuel limit i (wrap (j + i))
                   (set_nth (Z.to_nat j) 1 buf)) = Val buf') by now rewrite Er.
    destruct (Z_le_gt_dec (j + i) INT_MAX) as [Hok | Hov].
    + rewrite wrap_small in Hr by (unfold INT_MIN in *; lia).
      apply IH in Hr; [| unfold INT_MIN in *; lia | now rewrite set_nth_length].
      destruct Hr as [Hlen' Hr]. split; [assumption|].
      intros k Hk. rewrite (Hr k Hk). split.
      * intros [Hold | (m & Hm & ->)].
        -- destruct (Z.eq_dec k j) as [-> | Hne].
           ++ right. exists 0. lia.
           ++ left. rewrite nth_set_nth_ne in Hold by lia. exact Hold.
        -- right. exists (m + 1). lia.
      * intros [Hold | (m & Hm & ->)].
        -- destruct (Z.eq_dec k j) as [-> | Hne].
           ++ left. rewrite nth_set_nth_eq by lia. lia.
           ++ left. rewrite nth_set_nth_ne by lia. exact Hold.
        -- destruct (Z.eq_dec m 0) as [-> | Hne].
           ++ left. replace (j + 0 * i) with j by lia.
              rewrite nth_set_nth_eq by lia. lia.
           ++ right. exists (m - 1). lia.
    + exfalso.
      assert (Hneg : wrap (j + i) < 0) by (apply wrap_over; unfold INT_MAX in *; lia).
      destruct (mark_multiples_below fuel limit i (wrap (j + i))
                  (set_nth (Z.to_nat j) 1 buf)) as [E | E]; [lia | |];
        rewrite E in Hr; discriminate.
  - simpl. intros [= <-]. split; [assumption|].
    intros k Hk. split; [now left|].
    intros [Hold | (m & Hm & ->)]; [assumption | nia].
Qed.

(** Without overflow the loop completes. *)
Lemma mark_multiples_total (fuel : nat) (limit i j : Z) (buf : list Z) :
  1 <= i -> 0 <= j -> limit + i <= INT_MAX ->
  Z.of_nat (length buf) = limit + 1 ->
  Z.max 0 (limit - j + 1) < Z.of_nat fuel ->
  exists buf', snd (mark_multiples fuel limit i j buf) = Val buf'.
Proof.
  intros Hi. revert j buf.
  induction fuel as [|fuel IH]; intros j buf Hj Hov Hlen Hfuel; simpl.
  - lia.
  - destruct (Z.leb_spec j limit) as [Hle | Hgt].
    + rewrite store_some by lia.
      rewrite wrap_small by (unfold INT_MIN; lia).
      destruct (IH (j + i) (set_nth (Z.to_nat j) 1 buf)) as [buf' E];
        [lia | lia | now rewrite set_nth_length | lia |].
      destruct (mark_multiples fuel limit i (j + i) _) as [t r].
      exists buf'. exact E.
    + exists buf. reflexivity.
Qed.

(** With or without overflow it ends. *)
Lemma mark_multiples_ends (fuel : nat) (limit i j : Z) (buf : list Z) :
  1 <= i <= INT_MAX -> 0 <= limit <= INT_MAX -> INT_MIN <= j <= INT_MAX ->
  Z.of_nat (length buf) = limit + 1 ->
  (j < 0 /\ (1 <= fuel)%nat) \/ (0 <= j /\ Z.max 0 (limit - j + 2) < Z.of_nat fuel) ->
  snd (mark_multiples fuel limit i j buf) <> NoFuel.
Proof.
  intros Hi Hl. revert j buf.
  induction fuel as [|fuel IH]; intros j buf Hj Hlen Hfuel; [lia|]. simpl.
  destruct (Z.leb_spec j limit) as [Hle | Hgt]; [|discriminate].
  destruct (store buf j 1) as [buf1|] eqn:Es; [|discriminate].
  apply store_inv in Es. destruct Es as [Hin ->].
  assert (Hrec : snd (mark_multiples fuel limit i (wrap (j + i))
                   (set_nth (Z.to_nat j) 1 buf)) <> NoFuel).
  { apply IH; [apply wrap_range | now rewrite set_nth_length |].
    destruct (Z_le_gt_dec (j + i) INT_MAX) as [Hok | Hov].
    - right. rewrite wrap_small by (unfold INT_MIN in *; lia). lia.
    - left. split; [apply wrap_over; unfold INT_MAX in *; lia | lia]. }
  destruct (mark_multiples fuel limit i (wrap (j + i)) _) as [t r]. exact Hrec.
Qed.

(** Without overflow every store of the loop is inside the block. *)
Lemma mark_multiples_within (fuel : nat) (limit i j : Z) (buf : list Z) :
  1 <= i -> 0 <= j -> limit + i <= INT_MAX ->
  Forall (within_block limit) (fst (mark_multiples fuel limit i j buf)).
Proof.
  intros Hi. revert j buf.
  induction fuel as [|fuel IH]; intros j buf Hj Hov; simpl; [constructor|].
  destruct (Z.leb_spec j limit) as [Hle | Hgt]; [|constructor].
  assert (Hw : within_block limit (EvStore j 1)) by (simpl; lia).
  destruct (store buf j 1) as [buf1|]; [|constructor; [exact Hw | constructor]].
  rewrite wrap_small by (unfold INT_MIN; lia).
  specialize (IH (j + i) buf1 ltac:(lia) Hov).
  destruct (mark_multiples fuel limit i (j + i) buf1) as [t r].
  constructor; [exact Hw | exact IH].
Qed.

(** Every event of the loop is a store of 1. *)
Lemma mark_multiples_trace (fuel : nat) (limit i j : Z) (buf : list Z) :
  Forall (fun e => exists idx, e = EvStore idx 1)
         (fst (mark_multiples fuel limit i j buf)).
Proof.
  revert j buf. induction fuel as [|fuel IH]; intros j buf; simpl; [constructor|].
  destruct (j <=? limit); [|constructor].
  destruct (store buf j 1) as [buf1|].
  - specialize (IH (wrap (j + i)) buf1).
    destruct (mark_multiples fuel limit i (wrap (j + i)) buf1) as [t r].
    constructor; [now exists j | exact IH].
  - constructor; [now exists j | constructor].
Qed.

End Marking.

(** ** The scan loop *)

Lemma mark_multiples_S (fuel : nat) (limit i j : Z) (buf : list Z) :
  mark_multiples (S fuel) limit i j buf =
  if j <=? limit then
    match store buf j 1 with
    | None => ([EvStore j 1], Undef (OutOfBounds j))
    | Some buf' =>
        let (t, r) := mark_multiples fuel limit i (wrap (j + i)) buf' in
        (EvStore j 1 :: t, r)
    end
  else ([], Val buf).
Proof. reflexivity. Qed.

Lemma scan_S (stray : Z -> option Z) (fuel : nat) (n limit count i : Z) (buf : list Z) :
  scan stray (S fuel) n limit count i buf =
  if i <=? wrap (limit + 1) then
    match load stray buf i with
    | None => ([EvLoad i], Undef (OutOfBounds i))
    | Some b =>
        if b =? 0 then
          if count =? n then ([EvLoad i], Val (Break, i))
          else
            match mark_multiples fuel limit i (wrap (i * 2)) buf with
            | (t, Val buf') =>
                let (t', r) :=
                  scan stray fuel n limit (wrap (count + 1)) (wrap (i + 1)) buf' in
                (EvLoad i :: t ++ t', r)
            | (t, Undef u) => (EvLoad i :: t, Undef u)
            | (t, NoFuel) => (EvLoad i :: t, NoFuel)
            end
        else
          let (t', r) := scan stray fuel n limit count (wrap (i + 1)) buf in
          (EvLoad i :: t', r)
    end
  else ([], Val (Exhausted, i)).
Proof. reflexivity. Qed.

Section Scanning.

Variable stray : Z -> option Z.

(** The result of one turn of the loop over a cell that is set. *)
Lemma scan_skip (fuel : nat) (n limit count i : Z) (buf : list Z) :
  i <= wrap (limit + 1) -> 0 <= i < Z.of_nat (length buf) ->
  nth (Z.to_nat i) buf 0 <> 0 ->
  snd (scan stray (S fuel) n limit count i buf) =
  snd (scan stray fuel n limit count (wrap (i + 1)) buf).
Proof.
  intros Hi Hin Hb. rewrite scan_S.
  replace (i <=? wrap (limit + 1)) with true by (symmetry; apply Z.leb_le; exact Hi).
  rewrite load_inside by exact Hin.
  replace (nth (Z.to_nat i) buf 0 =? 0) with false
    by (symmetry; apply Z.eqb_neq; exact Hb).
  destruct (scan stray fuel n limit count (wrap (i + 1)) buf). reflexivity.
Qed.

(** Over a clear cell when the count has reached [n]. *)
Lemma scan_break (fuel : nat) (n limit i : Z) (buf : list Z) :
  i <= wrap (limit + 1) -> 0 <= i < Z.of_nat (length buf) ->
  nth (Z.to_nat i) buf 0 = 0 ->
  snd (scan stray (S fuel) n limit n i buf) = Val (Break, i).
Proof.
  intros Hi Hin Hb. rewrite scan_S.
  replace (i <=? wrap (limit + 1)) with true by (symmetry; apply Z.leb_le; exact Hi).
  rewrite load_inside by exact Hin.
  rewrite Hb, !Z.eqb_refl. reflexivity.
Qed.

(** Over a clear cell when it has not: the multiples are marked and the
    scan goes on. *)
Lemma scan_mark (fuel : nat) (n limit count i : Z) (buf buf' : list Z) :
  i <= wrap (limit + 1) -> 0 <= i < Z.of_nat (length buf) ->
  nth (Z.to_nat i) buf 0 = 0 -> count <> n ->
  snd (mark_multiples fuel limit i (wrap (i * 2)) buf) = Val buf' ->
  snd (scan stray (S fuel) n limit count i buf) =
  snd (scan stray fuel n limit (wrap (count + 1)) (wrap (i + 1)) buf').
Proof.
  intros Hi Hin Hb Hc Hm. rewrite scan_S.
  replace (i <=? wrap (limit + 1)) with true by (symmetry; apply Z.leb_le; exact Hi).
  rewrite load_inside by exact Hin.
  rewrite Hb. simpl (0 =? 0).
  replace (count =? n) with false by (symmetry; apply Z.eqb_neq; exact Hc).
  destruct (mark_multiples fuel limit i (wrap (i * 2)) buf) as [t r].
  simpl in Hm. subst r.
  destruct (scan stray fuel n limit (wrap (count + 1)) (wrap (i + 1)) buf').
  reflexivity.
Qed.

(** The same, when the marking loop stores outside the block. *)
Lemma scan_mark_undef (fuel : nat) (n limit count i : Z) (buf : list Z) (u : ub) :
  i <= wrap (limit + 1) -> 0 <= i < Z.of_nat (length buf) ->
  nth (Z.to_nat i) buf 0 = 0 -> count <> n ->
  snd (mark_multiples fuel limit i (wrap (i * 2)) buf) = Undef u ->
  snd (scan stray (S fuel) n limit count i buf) = Undef u.
Proof.
  intros Hi Hin Hb Hc Hm. rewrite scan_S.
  replace (i <=? wrap (limit + 1)) with true by (symmetry; apply Z.leb_le; exact Hi).
  rewrite load_inside by exact Hin.
  rewrite Hb. simpl (0 =? 0).
  replace (count =? n) with false by (symmetry; apply Z.eqb_neq; exact Hc).
  destruct (mark_multiples fuel limit i (wrap (i * 2)) buf) as [t r].
  simpl in Hm. subst r. reflexivity.
Qed.

(** The scan is left with [i] at most one past its bound; through the
    exhaustion edge it is left with [i] exactly there. *)
Lemma scan_bound (fuel : nat) (n limit count i : Z) (buf : list Z)
      (e : scan_end) (i' : Z) :
  INT_MIN <= i ->
  snd (scan stray fuel n limit count i buf) = Val (e, i') ->
  i' <= Z.max i (wrap (limit + 1) + 1) /\
  (e = Exhausted -> i' = Z.max i (wrap (limit + 1) + 1)) /\
  (e = Break -> i' <= wrap (limit + 1)).
Proof.
  revert count i buf.
  induction fuel as [|fuel IH]; intros count i buf Hi; [discriminate|].
  assert (Hstep : forall c b,
    i <= wrap (limit + 1) ->
    snd (scan stray fuel n limit c (wrap (i + 1)) b) = Val (e, i') ->
    i' <= Z.max i (wrap (limit + 1) + 1) /\
    (e = Exhausted -> i' = Z.max i (wrap (limit + 1) + 1)) /\
    (e = Break -> i' <= wrap (limit + 1))).
  { intros c b Hle Hr. apply IH in Hr; [|apply wrap_range].
    assert (H1 := wrap_range (limit + 1)). assert (H2 := wrap_range (i + 1)).
    assert (Hw : wrap (i + 1) <= wrap (limit + 1) + 1).
    { destruct (Z.eq_dec i INT_MAX) as [-> | Hne]; [lia|].
      rewrite wrap_small by lia. lia. }
    rewrite Z.max_r in Hr by exact Hw. rewrite Z.max_r by lia. exact Hr. }
  rewrite scan_S.
  destruct (Z.leb_spec i (wrap (limit + 1))) as [Hle | Hgt].
  - destruct (load stray buf i) as [b|]; [|discriminate].
    destruct (b =? 0).
    + destruct (count =? n).
      * simpl. intros [= <- <-].
        split; [lia|]. split; [discriminate | lia].
      * destruct (mark_multiples fuel limit i (wrap (i * 2)) buf) as [t [buf'| |]];
          try discriminate.
        destruct (scan stray fuel n limit (wrap (count + 1)) (wrap (i + 1)) buf')
          as [t' r] eqn:E.
        simpl. intros ->. apply (Hstep (wrap (count + 1)) buf' Hle). now rewrite E.
    + destruct (scan stray fuel n limit count (wrap (i + 1)) buf) as [t' r] eqn:E.
      simpl. intros ->. apply (Hstep count buf Hle). now rewrite E.
  - simpl. intros [= <- <-]. split; [lia|]. split; [lia | discriminate].
Qed.

(** *** The sieve invariant *)

(** It holds when the scan is entered on the fresh block. *)
Lemma scan_inv_init (n limit : Z) (buf : list Z) :
  1 <= n -> 1 <= limit ->
  Z.of_nat (length buf) = limit + 1 ->
  (forall k, nth k buf 0 = 0) ->
  scan_inv n limit 1 2 buf.
Proof.
  intros Hn Hl Hlen Hz. constructor; try assumption; try lia.
  - reflexivity.
  - simpl. rewrite pi_1. lia.
  - intros k _ Hk. exfalso. apply Hk, Hz.
  - intros k _ (p & m & [Hp _] & Hlt & _). lia.
Qed.

(** A clear cell under the scan is a prime. *)
Lemma scan_inv_clear (n limit count i : Z) (buf : list Z) :
  scan_inv n limit count i buf -> i <= limit ->
  nth (Z.to_nat i) buf 0 = 0 -> prime_number i.
Proof.
  intros Inv Hi Hb.
  destruct (prime_number_dec i) as [Hp | Hn]; [assumption|]. exfalso.
  destruct Inv. apply (inv_complete0 i); [lia | | exact Hb].
  apply composite_struck; [lia | exact Hn].
Qed.

(** A set cell under the scan is not. *)
Lemma scan_inv_set (n limit count i : Z) (buf : list Z) :
  scan_inv n limit count i buf -> i <= limit ->
  nth (Z.to_nat i) buf 0 <> 0 -> ~ prime_number i.
Proof.
  intros Inv Hi Hb. destruct Inv.
  eapply struck_not_prime. apply inv_sound0; [lia | exact Hb].
Qed.

Lemma pi_step_prime (i : Z) : 2 <= i -> prime_number i -> pi i = pi (i - 1) + 1.
Proof.
  intros Hi Hp. assert (H := pi_succ (i - 1) ltac:(lia)).
  replace (i - 1 + 1) with i in H by lia.
  apply primeb_spec in Hp. now rewrite Hp in H.
Qed.

Lemma pi_step_composite (i : Z) : 2 <= i -> ~ prime_number i -> pi i = pi (i - 1).
Proof.
  intros Hi Hp. assert (H := pi_succ (i - 1) ltac:(lia)).
  replace (i - 1 + 1) with i in H by lia.
  destruct (primeb i) eqn:E; [apply primeb_spec in E; contradiction | lia].
Qed.

(** The invariant is kept over a set cell. *)
Lemma scan_inv_skip (n limit count i : Z) (buf : list Z) :
  scan_inv n limit count i buf -> i <= limit ->
  nth (Z.to_nat i) buf 0 <> 0 ->
  scan_inv n limit count (i + 1) buf.
Proof.
  intros Inv Hi Hb. assert (Hn := scan_inv_set _ _ _ _ _ Inv Hi Hb).
  destruct Inv. 
  assert (E : pi (i + 1 - 1) = pi (i - 1)).
  { replace (i + 1 - 1) with i by lia. apply pi_step_composite; [lia | exact Hn]. }
  constructor; try assumption; try lia.
  - intros k Hk Hnz. eapply struck_mono; [|apply inv_sound0; eassumption]. lia.
  - intros k Hk Hs. apply inv_complete0; [exact Hk|].
    apply struck_step_composite; assumption.
Qed.

(** The invariant is kept over a clear cell whose multiples get marked. *)
Lemma scan_inv_mark (n limit count i : Z) (buf buf' : list Z) :
  scan_inv n limit count i buf -> i <= limit ->
  nth (Z.to_nat i) buf 0 = 0 -> count <> n ->
  Z.of_nat (length buf') = limit + 1 ->
  (forall k, 0 <= k <= limit ->
     (nth (Z.to_nat k) buf' 0 <> 0 <->
      nth (Z.to_nat k) buf 0 <> 0 \/ exists m, 0 <= m /\ k = i * 2 + m * i)) ->
  scan_inv n limit (count + 1) (i + 1) buf'.
Proof.
  intros Inv Hi Hb Hc Hlen Hm. assert (Hp := scan_inv_clear _ _ _ _ _ Inv Hi Hb).
  destruct Inv.
  assert (E : pi (i + 1 - 1) = pi (i - 1) + 1).
  { replace (i + 1 - 1) with i by lia. apply pi_step_prime; [lia | exact Hp]. }
  constructor; try assumption; try lia.
  - intros k Hk Hnz. apply Hm in Hnz; [|exact Hk].
    destruct Hnz as [Hold | (m & Hm0 & ->)].
    + eapply struck_mono; [|apply inv_sound0; eassumption]. lia.
    + exists i, (m + 2). split; [exact Hp|]. split; [lia|]. split; lia.
  - intros k Hk Hs. apply Hm; [exact Hk|].
    destruct (struck_step_prime _ _ Hs) as [Hold | (m & Hm0 & ->)].
    + left. apply inv_complete0; assumption.
    + right. exists (m - 2). lia.
Qed.

(** With the invariant and no overflow in sight, the scan either breaks on
    the [n]-th prime, when that prime is within [limit], or arrives at the
    cell after the block. *)
Lemma scan_correct (d fuel : nat) (n limit count i : Z) (buf : list Z) :
  1 <= limit < 2 ^ 30 - 1 -> n <= INT_MAX ->
  scan_inv n limit count i buf ->
  Z.of_nat d = limit + 1 - i ->
  (d + Z.to_nat limit + 4 <= fuel)%nat ->
  (n <= pi limit ->
   exists p, nth_prime_is n p /\ p <= limit /\
             snd (scan stray fuel n limit count i buf) = Val (Break, p)) /\
  (pi limit < n ->
   snd (scan stray fuel n limit count i buf) = past_end stray n limit).
Proof.
  intros Hl Hn. revert fuel count i buf.
  assert (HL1 : wrap (limit + 1) = limit + 1)
    by (apply wrap_small; unfold INT_MIN, INT_MAX; lia).
  induction d as [|d IH]; intros fuel count i buf Inv Hd Hfuel.
  - assert (Hi : i = limit + 1) by lia. subst i.
    assert (Hc : count = 1 + pi limit).
    { destruct Inv. replace (limit + 1 - 1) with limit in inv_count0 by lia.
      exact inv_count0. }
    split.
    + intros Hle. exfalso. destruct Inv.
      replace (limit + 1 - 1) with limit in inv_rank0 by lia. lia.
    + intros _. destruct fuel as [|[|fuel]]; [lia | lia |].
      rewrite scan_S, HL1, Z.leb_refl.
      rewrite load_outside by (destruct Inv; lia).
      unfold past_end. destruct (stray (limit + 1)) as [b|]; [|reflexivity].
      rewrite Hc.
      assert (Hexit : scan stray (S fuel) n limit
                (if b =? 0 then wrap (1 + pi limit + 1) else 1 + pi limit)
                (wrap (limit + 1 + 1)) buf = ([], Val (Exhausted, limit + 2))).
      { rewrite scan_S, HL1.
        rewrite wrap_small by (unfold INT_MIN, INT_MAX; lia).
        replace (limit + 1 + 1 <=? limit + 1) with false
          by (symmetry; apply Z.leb_gt; lia).
        f_equal. f_equal. f_equal. lia. }
      destruct (b =? 0); cbn [andb].
      * destruct (1 + pi limit =? n); [reflexivity|].
        rewrite mark_multiples_S.
        rewrite (wrap_small ((limit + 1) * 2)) by (unfold INT_MIN, INT_MAX; lia).
        replace ((limit + 1) * 2 <=? limit) with false
          by (symmetry; apply Z.leb_gt; lia).
        rewrite Hexit. reflexivity.
      * rewrite Hexit. reflexivity.
  - assert (Hi : 2 <= i <= limit) by (destruct Inv; lia).
    assert (Hlen : Z.of_nat (length buf) = limit + 1) by (destruct Inv; assumption).
    destruct fuel as [|fuel]; [lia|].
    assert (Hw : wrap (i + 1) = i + 1)
      by (apply wrap_small; unfold INT_MIN, INT_MAX; lia).
    destruct (Z.eq_dec (nth (Z.to_nat i) buf 0) 0) as [Hb | Hb].
    + assert (Hp := scan_inv_clear _ _ _ _ _ Inv (proj2 Hi) Hb).
      assert (Epi : pi i = pi (i - 1) + 1) by (apply pi_step_prime; [lia | exact Hp]).
      assert (Hc : count = 1 + pi (i - 1)) by (destruct Inv; assumption).
      assert (Hmono : pi i <= pi limit) by (apply pi_mono; lia).
      destruct (Z.eq_dec count n) as [-> | Hne].
      * rewrite scan_break by (rewrite ?HL1; lia).
        split.
        -- intros _. exists i. split; [split; [exact Hp | lia]|]. split; [lia | reflexivity].
        -- intros Hlt. lia.
      * assert (Hw2 : wrap (i * 2) = i * 2)
          by (apply wrap_small; unfold INT_MIN, INT_MAX; lia).
        destruct (mark_multiples_total fuel limit i (i * 2) buf) as [buf' Hm];
          [lia | lia | unfold INT_MAX; lia | exact Hlen | lia |].
        assert (Hv := Hm). apply mark_multiples_val in Hv;
          [| unfold INT_MAX; lia | unfold INT_MAX; lia
           | unfold INT_MIN, INT_MAX; lia | exact Hlen].
        destruct Hv as [Hlen' Hmarks].
        rewrite (scan_mark fuel n limit count i buf buf');
          [| rewrite HL1; lia | lia | exact Hb | exact Hne | rewrite Hw2; exact Hm].
        assert (Hrank : pi (i - 1) < n) by (destruct Inv; assumption).
        assert (H0 := pi_nonneg (i - 1)).
        rewrite Hw, (wrap_small (count + 1)) by (unfold INT_MIN, INT_MAX in *; lia).
        apply IH; [| lia | lia].
        apply (scan_inv_mark n limit count i buf buf' Inv (proj2 Hi) Hb Hne Hlen' Hmarks).
    + rewrite scan_skip by (rewrite ?HL1; lia || exact Hb).
      rewrite Hw. apply IH; [| lia | lia].
      apply scan_inv_skip; [exact Inv | lia | exact Hb].
Qed.

(** With the invariant, no overflow in sight and the [n]-th prime within
    [limit], every access of the scan is inside the block. *)
Lemma scan_within (d fuel : nat) (n limit count i : Z) (buf : list Z) :
  1 <= limit < 2 ^ 30 - 1 -> n <= INT_MAX ->
  scan_inv n limit count i buf ->
  Z.of_nat d = limit + 1 - i ->
  n <= pi limit ->
  Forall (within_block limit) (fst (scan stray fuel n limit count i buf)).
Proof.
  intros Hl Hn Hd. revert fuel count i buf Hd.
  assert (HL1 : wrap (limit + 1) = limit + 1)
    by (apply wrap_small; unfold INT_MIN, INT_MAX; lia).
  induction d as [|d IH]; intros fuel count i buf Inv Hd Hpi.
  - exfalso. destruct Inv. replace (i - 1) with limit in inv_rank0 by lia. lia.
  - assert (Hi : 2 <= i <= limit) by (destruct Inv; lia).
    assert (Hlen : Z.of_nat (length buf) = limit + 1) by (destruct Inv; assumption).
    destruct fuel as [|fuel]; [constructor|].
    assert (Hw : wrap (i + 1) = i + 1)
      by (apply wrap_small; unfold INT_MIN, INT_MAX; lia).
    assert (Hload : within_block limit (EvLoad i)) by (simpl; lia).
    rewrite scan_S, HL1.
    replace (i <=? limit + 1) with true by (symmetry; apply Z.leb_le; lia).
    rewrite load_inside by lia.
    destruct (Z.eqb_spec (nth (Z.to_nat i) buf 0) 0) as [Hb | Hb].
    + destruct (Z.eqb_spec count n) as [Hc | Hc];
        [constructor; [exact Hload | constructor]|].
      assert (Hw2 : wrap (i * 2) = i * 2)
        by (apply wrap_small; unfold INT_MIN, INT_MAX; lia).
      rewrite Hw2.
      assert (Hm := mark_multiples_within fuel limit i (i * 2) buf
                      ltac:(lia) ltac:(lia) ltac:(unfold INT_MAX; lia)).
      destruct (mark_multiples fuel limit i (i * 2) buf) as [t [buf'| |]] eqn:Em;
        simpl in Hm; try (constructor; assumption).
      assert (Hv : snd (mark_multiples fuel limit i (i * 2) buf) = Val buf')
        by now rewrite Em.
      apply mark_multiples_val in Hv;
        [| unfold INT_MAX; lia | unfold INT_MAX; lia
         | unfold INT_MIN, INT_MAX; lia | exact Hlen].
      destruct Hv as [Hlen' Hmarks].
      assert (Hrank : pi (i - 1) < n) by (destruct Inv; assumption).
      assert (Hcnt : count = 1 + pi (i - 1)) by (destruct Inv; assumption).
      assert (H0 := pi_nonneg (i - 1)).
      rewrite Hw, (wrap_small (count + 1)) by (unfold INT_MIN, INT_MAX in *; lia).
      specialize (IH fuel (count + 1) (i + 1) buf'
                    (scan_inv_mark n limit count i buf buf' Inv (proj2 Hi) Hb Hc
                       Hlen' Hmarks) ltac:(lia) Hpi).
      destruct (scan stray fuel n limit (count + 1) (i + 1) buf') as [t' r].
      constructor; [exact Hload|]. apply Forall_app. split; assumption.
    + rewrite Hw.
      specialize (IH fuel count (i + 1) buf
                    (scan_inv_skip n limit count i buf Inv (proj2 Hi) Hb)
                    ltac:(lia) Hpi).
      destruct (scan stray fuel n limit count (i + 1) buf) as [t' r].
      constructor; assumption.
Qed.

(** Where loads outside the block trap, whatever the scan hands back is
    the [n]-th prime, reached through the [break]: an overflow in the
    marking or a bound that is too small ends the run before. *)
Lemma scan_partial (d fuel : nat) (n limit count i : Z) (buf : list Z)
      (e : scan_end) (v : Z) :
  (forall k, stray k = None) ->
  1 <= limit < INT_MAX -> n <= INT_MAX ->
  scan_inv n limit count i buf ->
  Z.of_nat d = limit + 1 - i ->
  snd (scan stray fuel n limit count i buf) = Val (e, v) ->
  e = Break /\ nth_prime_is n v /\ v <= limit.
Proof.
  intros Hs Hl Hn. revert fuel count i buf.
  assert (HL1 : wrap (limit + 1) = limit + 1)
    by (apply wrap_small; unfold INT_MIN, INT_MAX in *; lia).
  induction d as [|d IH]; intros fuel count i buf Inv Hd;
    (destruct fuel as [|fuel]; [discriminate|]).
  - rewrite scan_S, HL1.
    replace (i <=? limit + 1) with true by (symmetry; apply Z.leb_le; lia).
    rewrite load_outside by (destruct Inv; lia). rewrite Hs. discriminate.
  - assert (Hi : 2 <= i <= limit) by (destruct Inv; lia).
    assert (Hlen : Z.of_nat (length buf) = limit + 1) by (destruct Inv; assumption).
    assert (Hw : wrap (i + 1) = i + 1)
      by (apply wrap_small; unfold INT_MIN, INT_MAX in *; lia).
    destruct (Z.eq_dec (nth (Z.to_nat i) buf 0) 0) as [Hb | Hb].
    + assert (Hp := scan_inv_clear _ _ _ _ _ Inv (proj2 Hi) Hb).
      assert (Epi : pi i = pi (i - 1) + 1) by (apply pi_step_prime; [lia | exact Hp]).
      assert (Hc : count = 1 + pi (i - 1)) by (destruct Inv; assumption).
      destruct (Z.eq_dec count n) as [-> | Hne].
      * rewrite scan_break by (rewrite ?HL1; lia). intros [= <- <-].
        split; [reflexivity|]. split; [split; [exact Hp | lia] | lia].
      * destruct (snd (mark_multiples fuel limit i (wrap (i * 2)) buf))
          as [buf'| u |] eqn:Em.
        -- assert (Hw2 : wrap (i * 2) = i * 2).
           { destruct (Z_le_gt_dec (i * 2) INT_MAX) as [Hok | Hov];
               [apply wrap_small; unfold INT_MIN; lia|]. exfalso.
             assert (Hneg : wrap (i * 2) < 0)
               by (apply wrap_over; unfold INT_MAX in *; lia).
             destruct (mark_multiples_below fuel limit i (wrap (i * 2)) buf)
               as [E | E]; [lia | |]; rewrite E in Em; discriminate. }
           assert (Hv := Em). apply mark_multiples_val in Hv;
             [| unfold INT_MAX in *; lia | unfold INT_MAX in *; lia
              | apply wrap_range | exact Hlen].
           destruct Hv as [Hlen' Hmarks]. rewrite Hw2 in Hmarks.
           rewrite (scan_mark fuel n limit count i buf buf');
             [| rewrite HL1; lia | lia | exact Hb | exact Hne | exact Em].
           assert (Hrank : pi (i - 1) < n) by (destruct Inv; assumption).
           assert (H0 := pi_nonneg (i - 1)).
           rewrite Hw, (wrap_small (count + 1)) by (unfold INT_MIN, INT_MAX in *; lia).
           apply IH; [| lia].
           apply (scan_inv_mark n limit count i buf buf' Inv (proj2 Hi) Hb Hne
                    Hlen' Hmarks).
        -- rewrite (scan_mark_undef fuel n limit count i buf u);
             [discriminate | rewrite HL1; lia | lia | exact Hb | exact Hne | exact Em].
        -- rewrite scan_S, HL1.
           replace (i <=? limit + 1) with true by (symmetry; apply Z.leb_le; lia).
           rewrite load_inside by lia. rewrite Hb. simpl (0 =? 0).
           replace (count =? n) with false by (symmetry; apply Z.eqb_neq; exact Hne).
           destruct (mark_multiples fuel limit i (wrap (i * 2)) buf) as [t r].
           simpl in Em. subst r. discriminate.
    + rewrite scan_skip by (rewrite ?HL1; lia || exact Hb).
      rewrite Hw. apply IH; [| lia].
      apply scan_inv_skip; [exact Inv | lia | exact Hb].
Qed.

(** *** Termination of the scan *)

(** Below [INT_MAX] the scan variable climbs to the bound and the loop is
    left, whatever the block holds. *)
Lemma scan_ends (d fuel : nat) (n limit count i : Z) (buf : list Z) :
  1 <= limit <= INT_MAX - 2 ->
  2 <= i <= limit + 2 ->
  Z.of_nat (length buf) = limit + 1 ->
  Z.of_nat d = limit + 2 - i ->
  (d + Z.to_nat limit + 4 <= fuel)%nat ->
  snd (scan stray fuel n limit count i buf) <> NoFuel.
Proof.
  intros Hl. revert fuel count i buf.
  assert (HL1 : wrap (limit + 1) = limit + 1)
    by (apply wrap_small; unfold INT_MIN, INT_MAX in *; lia).
  induction d as [|d IH]; intros fuel count i buf Hi Hlen Hd Hfuel;
    (destruct fuel as [|fuel]; [lia|]); rewrite scan_S, HL1.
  - replace (i <=? limit + 1) with false by (symmetry; apply Z.leb_gt; lia).
    discriminate.
  - replace (i <=? limit + 1) with true by (symmetry; apply Z.leb_le; lia).
    assert (Hw : wrap (i + 1) = i + 1)
      by (apply wrap_small; unfold INT_MIN, INT_MAX in *; lia).
    destruct (load stray buf i) as [b|]; [|discriminate].
    destruct (b =? 0).
    + destruct (count =? n); [discriminate|].
      assert (He : snd (mark_multiples fuel limit i (wrap (i * 2)) buf) <> NoFuel).
      { apply mark_multiples_ends;
          [unfold INT_MAX in *; lia | unfold INT_MAX in *; lia
           | apply wrap_range | exact Hlen |].
        destruct (Z_lt_ge_dec (wrap (i * 2)) 0); [left | right]; lia. }
      destruct (mark_multiples fuel limit i (wrap (i * 2)) buf) as [t [buf'| |]] eqn:Em;
        [| discriminate | contradiction].
      assert (Hv : snd (mark_multiples fuel limit i (wrap (i * 2)) buf) = Val buf')
        by now rewrite Em.
      apply mark_multiples_val in Hv;
        [| unfold INT_MAX in *; lia | unfold INT_MAX in *; lia
         | apply wrap_range | exact Hlen].
      specialize (IH fuel (wrap (count + 1)) (wrap (i + 1)) buf').
      destruct (scan stray fuel n limit (wrap (count + 1)) (wrap (i + 1)) buf').
      simpl. apply IH; [lia | apply Hv | lia | lia].
    + specialize (IH fuel count (wrap (i + 1)) buf).
      destruct (scan stray fuel n limit count (wrap (i + 1)) buf).
      simpl. apply IH; [lia | exact Hlen | lia | lia].
Qed.

(** *** The events of the scan *)

Lemma scan_trace (fuel : nat) (n limit count i : Z) (buf : list Z) :
  Forall (fun e => (exists idx, e = EvLoad idx) \/ (exists idx, e = EvStore idx 1))
         (fst (scan stray fuel n limit count i buf)).
Proof.
  revert count i buf. induction fuel as [|fuel IH]; intros count i buf; [constructor|].
  assert (Hload : (exists idx, EvLoad i = EvLoad idx) \/
                  (exists idx, EvLoad i = EvStore idx 1)) by (left; now exists i).
  rewrite scan_S. destruct (i <=? wrap (limit + 1)); [|constructor].
  destruct (load stray buf i) as [b|]; [|constructor; [exact Hload | constructor]].
  destruct (b =? 0).
  - destruct (count =? n); [constructor; [exact Hload | constructor]|].
    assert (Hm := mark_multiples_trace fuel limit i (wrap (i * 2)) buf).
    assert (Hm' : Forall (fun e => (exists idx, e = EvLoad idx) \/
                                   (exists idx, e = EvStore idx 1))
                    (fst (mark_multiples fuel limit i (wrap (i * 2)) buf))).
    { eapply Forall_impl; [|exact Hm]. intros e He. now right. }
    destruct (mark_multiples fuel limit i (wrap (i * 2)) buf) as [t [buf'| |]];
      simpl in Hm'; try (constructor; assumption).
    specialize (IH (wrap (count + 1)) (wrap (i + 1)) buf').
    destruct (scan stray fuel n limit (wrap (count + 1)) (wrap (i + 1)) buf').
    simpl in *. constructor; [exact Hload|]. apply Forall_app. split; assumption.
  - specialize (IH count (wrap (i + 1)) buf).
    destruct (scan stray fuel n limit count (wrap (i + 1)) buf).
    simpl in *. constructor; assumption.
Qed.

(** *** More fuel changes nothing once a run has ended *)

Lemma mark_multiples_more_fuel (fuel : nat) (limit i j : Z) (buf : list Z) :
  snd (mark_multiples fuel limit i j buf) <> NoFuel ->
  mark_multiples (S fuel) limit i j buf = mark_multiples fuel limit i j buf.
Proof.
  revert j buf. induction fuel as [|fuel IH]; intros j buf H; [now elim H|].
  rewrite (mark_multiples_S (S fuel)).
  rewrite (mark_multiples_S fuel limit i j buf) in H |- *.
  destruct (j <=? limit); [|reflexivity].
  destruct (store buf j 1) as [buf1|]; [|reflexivity].
  rewrite IH; [reflexivity|].
  destruct (mark_multiples fuel limit i (wrap (j + i)) buf1). exact H.
Qed.

Lemma scan_more_fuel (fuel : nat) (n limit count i : Z) (buf : list Z) :
  snd (scan stray fuel n limit count i buf) <> NoFuel ->
  scan stray (S fuel) n limit count i buf = scan stray fuel n limit count i buf.
Proof.
  revert count i buf. induction fuel as [|fuel IH]; intros count i buf H; [now elim H|].
  rewrite (scan_S stray (S fuel)).
  rewrite (scan_S stray fuel n limit count i buf) in H |- *.
  destruct (i <=? wrap (limit + 1)); [|reflexivity].
  destruct (load stray buf i) as [b|]; [|reflexivity].
  destruct (b =? 0).
  - destruct (count =? n); [reflexivity|].
    rewrite mark_multiples_more_fuel.
    + destruct (mark_multiples fuel limit i (wrap (i * 2)) buf) as [t [buf'| |]];
        try reflexivity.
      rewrite IH; [reflexivity|].
      destruct (scan stray fuel n limit (wrap (count + 1)) (wrap (i + 1)) buf').
      exact H.
    + destruct (mark_multiples fuel limit i (wrap (i * 2)) buf) as [t [buf'| |]];
        simpl; try discriminate. now elim H.
  - rewrite IH; [reflexivity|].
    destruct (scan stray fuel n limit count (wrap (i + 1)) buf). exact H.
Qed.

Lemma scan_fuel_le (fuel fuel' : nat) (n limit count i : Z) (buf : list Z) :
  (fuel <= fuel')%nat ->
  snd (scan stray fuel n limit count i buf) <> NoFuel ->
  scan stray fuel' n limit count i buf = scan stray fuel n limit count i buf.
Proof.
  intros Hle H. induction Hle as [|k Hk IH]; [reflexivity|].
  rewrite scan_more_fuel; [exact IH | now rewrite IH].
Qed.

(** *** The largest bound below the wrap-around *)

(** When the last multiple of [i] up to [limit] is so large that the next
    [j += i] overflows, the marking loop does not complete. *)
Lemma mark_multiples_overflows (fuel : nat) (limit i j : Z) (buf buf' : list Z) :
  1 <= i <= INT_MAX -> 0 <= j <= limit -> limit <= INT_MAX ->
  Z.of_nat (length buf) = limit + 1 ->
  (limit - j) mod i = 0 -> INT_MAX < limit + i ->
  snd (mark_multiples fuel limit i j buf) <> Val buf'.
Proof.
  intros Hi. revert j buf.
  induction fuel as [|fuel IH]; intros j buf Hj Hl Hlen Hmod Hov; [discriminate|].
  rewrite mark_multiples_S.
  replace (j <=? limit) with true by (symmetry; apply Z.leb_le; lia).
  rewrite store_some by lia.
  assert (Hrec : snd (mark_multiples fuel limit i (wrap (j + i))
                   (set_nth (Z.to_nat j) 1 buf)) <> Val buf').
  { destruct (Z.eq_dec j limit) as [-> | Hne].
    - assert (Hneg : wrap (limit + i) < 0)
        by (apply wrap_over; unfold INT_MAX in *; lia).
      destruct (mark_multiples_below fuel limit i (wrap (limit + i))
                  (set_nth (Z.to_nat limit) 1 buf)) as [E | E]; [lia | |];
        rewrite E; discriminate.
    - assert (Hq : limit - j = i * ((limit - j) / i))
        by (apply Z.div_exact; [lia | exact Hmod]).
      assert (Hpos : 1 <= (limit - j) / i) by nia.
      rewrite wrap_small by (unfold INT_MIN in *; nia).
      apply IH; [nia | exact Hl | now rewrite set_nth_length | | exact Hov].
      replace (limit - (j + i)) with ((limit - j) + (-1) * i) by lia.
      rewrite Z.mod_add by lia. exact Hmod. }
  destruct (mark_multiples fuel limit i (wrap (j + i)) _). exact Hrec.
Qed.

End Scanning.

(** ** The body of the function *)

(** The body on a few inputs: the fourth prime with the bound 7, the
    hundredth with the bound 613, and the third with the bound 4, which is
    too small. *)
Example sieve_body_4_7 :
  sieve_body always trap 20 4 7 =
  ([EvCalloc 8 1; EvLoad 2; EvStore 4 1; EvStore 6 1; EvLoad 3; EvStore 6 1;
    EvLoad 4; EvLoad 5; EvLoad 6; EvLoad 7; EvFree], Val (Return 7)).
Proof. reflexivity. Qed.

Example sieve_body_100_613 :
  snd (sieve_body always trap 1300 100 613) = Val (Return 541).
Proof. vm_compute. reflexivity. Qed.

Example sieve_body_3_4 :
  sieve_body always trap 20 3 4 =
  ([EvCalloc 5 1; EvLoad 2; EvStore 4 1; EvLoad 3; EvLoad 4; EvLoad 5],
   Undef (OutOfBounds 5)).
Proof. reflexivity. Qed.

Example sieve_body_no_heap :
  sieve_body never trap 20 3 4 =
  ([EvCalloc 5 1; EvStderrLimit 4; EvStderr alloc_failed_msg], Val (Exit 1)).
Proof. reflexivity. Qed.

Section Body.

Variable heap_grants : Z -> bool.
Variable stray : Z -> option Z.

Lemma sieve_body_no_memory (fuel : nat) (n limit : Z) :
  calloc heap_grants (wrap (limit + 1)) 1 = None ->
  sieve_body heap_grants stray fuel n limit =
  ([EvCalloc (wrap (limit + 1)) 1; EvStderrLimit limit;
    EvStderr alloc_failed_msg], Val (Exit 1)).
Proof. intros H. unfold sieve_body. now rewrite H. Qed.

(** The result of the body in terms of the result of its scan. *)
Lemma sieve_body_scan (fuel : nat) (n limit : Z) (buf : list Z) :
  calloc heap_grants (wrap (limit + 1)) 1 = Some buf ->
  snd (sieve_body heap_grants stray fuel n limit) =
  match snd (scan stray fuel n limit 1 2 buf) with
  | Val (_, i) => Val (Return i)
  | Undef u => Undef u
  | NoFuel => NoFuel
  end.
Proof.
  intros H. unfold sieve_body. rewrite H.
  destruct (scan stray fuel n limit 1 2 buf) as [t [[e i]| |]]; reflexivity.
Qed.

Lemma scan_inv_fresh (n limit : Z) (buf : list Z) :
  1 <= n -> 1 <= limit < INT_MAX ->
  calloc heap_grants (wrap (limit + 1)) 1 = Some buf ->
  scan_inv n limit 1 2 buf.
Proof.
  intros Hn Hl Hc. apply scan_inv_init; [exact Hn | lia | |].
  - eapply calloc_length; [|exact Hc]. lia.
  - intros k. eapply calloc_zero. exact Hc.
Qed.

(** When the [n]-th prime is within [limit], the body returns it. *)
Lemma sieve_body_found (fuel : nat) (n limit : Z) (buf : list Z) :
  1 <= n <= INT_MAX -> 1 <= limit < 2 ^ 30 - 1 ->
  calloc heap_grants (wrap (limit + 1)) 1 = Some buf ->
  (Z.to_nat (2 * limit) + 4 <= fuel)%nat ->
  n <= pi limit ->
  exists p, nth_prime_is n p /\ p <= limit /\
            snd (sieve_body heap_grants stray fuel n limit) = Val (Return p).
Proof.
  intros Hn Hl Hc Hfuel Hpi.
  assert (Inv : scan_inv n limit 1 2 buf)
    by (apply scan_inv_fresh; [lia | unfold INT_MAX; lia | exact Hc]).
  destruct (scan_correct stray (Z.to_nat (limit - 1)) fuel n limit 1 2 buf)
    as [Hfound _]; [exact Hl | lia | exact Inv | lia | lia |].
  destruct (Hfound Hpi) as (p & Hp & Hle & E).
  exists p. split; [exact Hp|]. split; [exact Hle|].
  rewrite (sieve_body_scan fuel n limit buf Hc), E. reflexivity.
Qed.

(** When it is not, the scan reaches the cell after the block. *)
Lemma sieve_body_beyond (fuel : nat) (n limit : Z) (buf : list Z) :
  1 <= n <= INT_MAX -> 1 <= limit < 2 ^ 30 - 1 ->
  calloc heap_grants (wrap (limit + 1)) 1 = Some buf ->
  (Z.to_nat (2 * limit) + 4 <= fuel)%nat ->
  pi limit < n ->
  snd (scan stray fuel n limit 1 2 buf) = past_end stray n limit /\
  snd (sieve_body heap_grants stray fuel n limit) =
  match stray (limit + 1) with
  | None => Undef (OutOfBounds (limit + 1))
  | Some b =>
      if (b =? 0) && (1 + pi limit =? n) then Val (Return (limit + 1))
      else Val (Return (limit + 2))
  end.
Proof.
  intros Hn Hl Hc Hfuel Hpi.
  assert (Inv : scan_inv n limit 1 2 buf)
    by (apply scan_inv_fresh; [lia | unfold INT_MAX; lia | exact Hc]).
  destruct (scan_correct stray (Z.to_nat (limit - 1)) fuel n limit 1 2 buf)
    as [_ Hbeyond]; [exact Hl | lia | exact Inv | lia | lia |].
  specialize (Hbeyond Hpi). split; [exact Hbeyond|].
  rewrite (sieve_body_scan fuel n limit buf Hc), Hbeyond. unfold past_end.
  destruct (stray (limit + 1)) as [b|]; [|reflexivity].
  destruct ((b =? 0) && (1 + pi limit =? n)); reflexivity.
Qed.

(** When the [n]-th prime is within [limit], every access is inside the
    block. *)
Lemma sieve_body_within (fuel : nat) (n limit : Z) (buf : list Z) :
  1 <= n <= INT_MAX -> 1 <= limit < 2 ^ 30 - 1 ->
  calloc heap_grants (wrap (limit + 1)) 1 = Some buf ->
  n <= pi limit ->
  Forall (within_block limit) (fst (sieve_body heap_grants stray fuel n limit)).
Proof.
  intros Hn Hl Hc Hpi.
  assert (Inv : scan_inv n limit 1 2 buf)
    by (apply scan_inv_fresh; [lia | unfold INT_MAX; lia | exact Hc]).
  assert (Hs := scan_within stray (Z.to_nat (limit - 1)) fuel n limit 1 2 buf
                  Hl ltac:(lia) Inv ltac:(lia) Hpi).
  unfold sieve_body. rewrite Hc.
  destruct (scan stray fuel n limit 1 2 buf) as [t [[e i]| |]]; simpl in *.
  - constructor; [exact I|]. apply Forall_app. split; [exact Hs|].
    constructor; [exact I | constructor].
  - constructor; [exact I | exact Hs].
  - constructor; [exact I | exact Hs].
Qed.

(** Where no load traps and nothing overflows, the body returns. *)
Lemma sieve_body_defined (fuel : nat) (n limit : Z) (buf : list Z) :
  1 <= n <= INT_MAX -> 1 <= limit < 2 ^ 30 - 1 ->
  calloc heap_grants (wrap (limit + 1)) 1 = Some buf ->
  (Z.to_nat (2 * limit) + 4 <= fuel)%nat ->
  (forall k, stray k <> None) ->
  exists v, snd (sieve_body heap_grants stray fuel n limit) = Val (Return v).
Proof.
  intros Hn Hl Hc Hfuel Hs.
  destruct (Z_le_gt_dec n (pi limit)) as [Hpi | Hpi].
  - destruct (sieve_body_found fuel n limit buf Hn Hl Hc Hfuel Hpi) as (p & _ & _ & E).
    exists p. exact E.
  - destruct (sieve_body_beyond fuel n limit buf Hn Hl Hc Hfuel) as [_ E]; [lia|].
    rewrite E. specialize (Hs (limit + 1)).
    destruct (stray (limit + 1)) as [b|]; [|contradiction].
    destruct ((b =? 0) && (1 + pi limit =? n)); eexists; reflexivity.
Qed.

(** The value returned by the body is at most [limit + 2]. *)
Lemma sieve_body_bound (fuel : nat) (n limit v : Z) :
  0 <= limit <= INT_MAX ->
  snd (sieve_body heap_grants stray fuel n limit) = Val (Return v) ->
  v <= limit + 2.
Proof.
  intros Hl. unfold sieve_body.
  destruct (calloc heap_grants (wrap (limit + 1)) 1) as [buf|]; [|discriminate].
  destruct (scan stray fuel n limit 1 2 buf) as [t [[e i]| |]] eqn:E;
    try discriminate.
  simpl. intros [= <-].
  assert (Hs : snd (scan stray fuel n limit 1 2 buf) = Val (e, i)) by now rewrite E.
  apply scan_bound in Hs; [|unfold INT_MIN; lia].
  destruct Hs as [Hs _].
  destruct (Z.eq_dec limit INT_MAX) as [-> | Hne].
  - assert (Ew : wrap (INT_MAX + 1) = INT_MIN) by reflexivity.
    rewrite Ew in Hs. unfold INT_MIN, INT_MAX in *. lia.
  - rewrite wrap_small in Hs by (unfold INT_MIN, INT_MAX in *; lia). lia.
Qed.

(** The body ends, for every [limit] an [int] can hold. *)
Lemma sieve_body_ends (fuel : nat) (n limit : Z) :
  INT_MIN <= limit <= INT_MAX ->
  (Z.to_nat (2 * limit) + 6 <= fuel)%nat ->
  snd (sieve_body heap_grants stray fuel n limit) <> NoFuel.
Proof.
  intros Hl Hfuel.
  destruct (calloc heap_grants (wrap (limit + 1)) 1) as [buf|] eqn:Hc;
    [| rewrite sieve_body_no_memory by exact Hc; discriminate].
  rewrite (sieve_body_scan fuel n limit buf Hc).
  assert (Hscan : snd (scan stray fuel n limit 1 2 buf) <> NoFuel);
    [| destruct (snd (scan stray fuel n limit 1 2 buf)) as [[e i]| |];
       [discriminate | discriminate | contradiction]].
  destruct fuel as [|fuel]; [lia|].
  destruct (Z_lt_ge_dec (wrap (limit + 1)) 2) as [Hlow | Hhigh].
  { rewrite scan_S.
    replace (2 <=? wrap (limit + 1)) with false by (symmetry; apply Z.leb_gt; lia).
    discriminate. }
  assert (Hl1 : 1 <= limit <= INT_MAX - 1).
  { destruct (Z.eq_dec limit INT_MAX) as [-> | Hne].
    - exfalso. revert Hhigh. unfold INT_MAX. vm_compute. intros H. now apply H.
    - rewrite wrap_small in Hhigh by (unfold INT_MIN, INT_MAX in *; lia). lia. }
  assert (Hlen : Z.of_nat (length buf) = limit + 1)
    by (eapply calloc_length; [|exact Hc]; lia).
  destruct (Z.eq_dec limit (INT_MAX - 1)) as [Htop | Hne].
  - assert (Hb : nth (Z.to_nat 2) buf 0 = 0) by (eapply calloc_zero; exact Hc).
    destruct (Z.eq_dec 1 n) as [<- | Hn1].
    + rewrite scan_break; [discriminate | lia | unfold INT_MAX in *; lia | exact Hb].
    + assert (Hw : wrap (2 * 2) = 4) by reflexivity.
      assert (He : snd (mark_multiples fuel limit 2 (wrap (2 * 2)) buf) <> NoFuel).
      { apply mark_multiples_ends;
          [unfold INT_MAX; lia | lia | rewrite Hw; unfold INT_MIN, INT_MAX; lia
           | exact Hlen |].
        right. rewrite Hw. lia. }
      destruct (snd (mark_multiples fuel limit 2 (wrap (2 * 2)) buf))
        as [buf'| u |] eqn:Em; [| | contradiction].
      * exfalso. revert Em. rewrite Hw.
        apply mark_multiples_overflows;
          [unfold INT_MAX; lia | unfold INT_MAX in *; lia | lia | exact Hlen
           | subst limit; reflexivity | lia].
      * rewrite (scan_mark_undef stray fuel n limit 1 2 buf u);
          [discriminate | lia | unfold INT_MAX in *; lia | exact Hb | exact Hn1
           | exact Em].
  - apply (scan_ends stray (Z.to_nat limit) (S fuel) n limit 1 2 buf);
      [lia | lia | exact Hlen | lia | lia].
Qed.

(** The events of the body: one allocation, then loads and stores of 1,
    then at most the release or the two messages. *)
Lemma sieve_body_stores (fuel : nat) (n limit idx v : Z) :
  In (EvStore idx v) (fst (sieve_body heap_grants stray fuel n limit)) -> v = 1.
Proof.
  unfold sieve_body.
  destruct (calloc heap_grants (wrap (limit + 1)) 1) as [buf|].
  - assert (Ht := scan_trace stray fuel n limit 1 2 buf).
    rewrite Forall_forall in Ht.
    assert (Hin : In (EvStore idx v) (fst (scan stray fuel n limit 1 2 buf)) -> v = 1).
    { intros Hin. destruct (Ht _ Hin) as [[k E] | [k E]]; [discriminate|].
      now injection E. }
    destruct (scan stray fuel n limit 1 2 buf) as [t [[e i]| |]]; simpl in *.
    + intros [E | H]; [discriminate|]. apply in_app_or in H.
      destruct H as [H | [E | []]]; [now apply Hin | discriminate].
    + intros [E | H]; [discriminate | now apply Hin].
    + intros [E | H]; [discriminate | now apply Hin].
  - simpl. intros [E | [E | [E | []]]]; discriminate.
Qed.

End Body.

(** ** The bound estimate *)

Section Estimate.

Local Open Scope R_scope.

Lemma ceil_unique (x : R) (z : Z) : IZR z - 1 < x <= IZR z -> ceil x = z.
Proof.
  intros [Hlo Hhi]. unfold ceil, Int_part.
  assert (H : (up (- x) = 1 - z)%Z).
  { symmetry. apply tech_up; rewrite minus_IZR; simpl; lra. }
  rewrite H. lia.
Qed.

Lemma ceil_lower (x : R) (z : Z) : IZR z < x -> (z + 1 <= ceil x)%Z.
Proof.
  intros Hlt. unfold ceil, Int_part.
  assert (H : IZR (up (- x)) < IZR (1 - z)).
  { rewrite minus_IZR. simpl. destruct (archimed (- x)) as [_ Hle]. lra. }
  apply lt_IZR in H. lia.
Qed.

Lemma ceil_upper (x : R) (z : Z) : x <= IZR z -> (ceil x <= z)%Z.
Proof.
  intros Hle. unfold ceil, Int_part.
  destruct (archimed (- x)) as [Hup _].
  assert (H : IZR (- z) < IZR (up (- x))) by (rewrite opp_IZR; lra).
  apply lt_IZR in H. lia.
Qed.

Lemma exp_mult_nat (x : R) (k : nat) : exp (INR k * x) = exp x ^ k.
Proof.
  induction k as [|k IH].
  - simpl. rewrite Rmult_0_l. apply exp_0.
  - rewrite S_INR, Rmult_plus_distr_r, Rmult_1_l, exp_plus, IH. simpl. ring.
Qed.

(** [(1 + x)^k <= exp (k x) <= (1 - x)^-k]: the two sides from which the
    numerical bounds below are read off. *)
Lemma exp_lower (x : R) (k : nat) : 0 <= 1 + x -> (1 + x) ^ k <= exp (INR k * x).
Proof.
  intros H. rewrite exp_mult_nat.
  apply pow_incr. split; [assumption | apply exp_ineq1_le].
Qed.

Lemma exp_le_inv_1m (x : R) : x < 1 -> exp x <= / (1 - x).
Proof.
  intros H.
  assert (Hm := exp_ineq1_le (- x)). assert (Hp := exp_pos x).
  rewrite exp_Ropp in Hm.
  apply Rmult_le_reg_r with (1 - x); [lra|].
  rewrite Rinv_l by lra.
  apply Rmult_le_reg_r with (/ exp x); [apply Rinv_0_lt_compat; assumption|].
  replace (exp x * (1 - x) * / exp x) with ((1 - x) * (exp x * / exp x)) by ring.
  rewrite Rinv_r by lra. lra.
Qed.

Lemma exp_upper (x : R) (k : nat) : x < 1 -> exp (INR k * x) <= (/ (1 - x)) ^ k.
Proof.
  intros H. rewrite exp_mult_nat.
  apply pow_incr. split; [left; apply exp_pos | apply exp_le_inv_1m; exact H].
Qed.

Lemma ln_upper (a b : R) : 0 < b -> b <= exp a -> ln b <= a.
Proof.
  intros Hb H. rewrite <- (ln_exp a). destruct H as [H | H].
  - left. apply ln_increasing; assumption.
  - rewrite H. right. reflexivity.
Qed.

Lemma ln_lower (a b : R) : exp a < b -> a < ln b.
Proof.
  intros H. rewrite <- (ln_exp a). apply ln_increasing; [apply exp_pos | assumption].
Qed.

Lemma ln_le_pred (x : R) : 0 < x -> ln x <= x - 1.
Proof.
  intros Hx. assert (H := exp_ineq1_le (ln x)).
  rewrite exp_ln in H by assumption. lra.
Qed.

Lemma ln_from_2 (x : R) : 2 <= x -> / 2 < ln x.
Proof.
  intros Hx. apply Rlt_le_trans with (ln 2); [apply ln_lt_2|].
  destruct Hx as [Hx | Hx].
  - left. apply ln_increasing; lra.
  - rewrite Hx. right. reflexivity.
Qed.

Lemma ln_2_upper : ln 2 <= 39 / 50.
Proof.
  apply ln_upper; [lra|].
  replace (39 / 50) with (INR 4 * (39 / 200)) by (simpl; lra).
  eapply Rle_trans; [| apply exp_lower; lra]. lra.
Qed.

Lemma exp_1_lt_3 : exp 1 < 3.
Proof.
  replace 1 with (INR 8 * (1 / 8)) by (simpl; lra).
  eapply Rle_lt_trans; [apply exp_upper; lra|].
  replace (/ (1 - 1 / 8)) with (8 / 7) by lra. lra.
Qed.

Lemma ln_3_lower : 1 < ln 3.
Proof. apply ln_lower, exp_1_lt_3. Qed.

Lemma ln_3_upper : ln 3 <= 57 / 50.
Proof.
  apply ln_upper; [lra|].
  replace (57 / 50) with (INR 32 * (57 / 1600)) by (simpl; lra).
  eapply Rle_trans; [| apply exp_lower; lra]. lra.
Qed.

Lemma ln_6_lower : 3 / 2 < ln 6.
Proof.
  apply ln_lower.
  replace (3 / 2) with (INR 8 * (3 / 16)) by (simpl; lra).
  eapply Rle_lt_trans; [apply exp_upper; lra|].
  replace (/ (1 - 3 / 16)) with (16 / 13) by lra. lra.
Qed.

(** Where [ln x] is positive the estimate is [x * ln (x * ln x)]. *)
Lemma estimate_factored (x : R) :
  0 < x -> 0 < ln x -> x * ln x + x * ln (ln x) = x * ln (x * ln x).
Proof.
  intros Hx Hl. rewrite (ln_mult x (ln x)) by assumption. ring.
Qed.

(** [2 ln 2 + 2 ln (ln 2)] is about 0.65. *)
Lemma bound_estimate_2 : bound_estimate 2 = 1%Z.
Proof.
  unfold bound_estimate. apply ceil_unique.
  assert (Hlo := ln_lt_2). assert (Hhi := ln_2_upper).
  rewrite estimate_factored by lra.
  assert (H0 : 0 < ln (2 * ln 2)).
  { rewrite <- ln_1. apply ln_increasing; lra. }
  assert (H1 : ln (2 * ln 2) <= / 2).
  { apply ln_upper; [lra|].
    replace (/ 2) with (INR 2 * (1 / 4)) by (simpl; lra).
    eapply Rle_trans; [| apply exp_lower; lra]. lra. }
  simpl. lra.
Qed.

(** [3 ln 3 + 3 ln (ln 3)] is about 3.58. *)
Lemma bound_estimate_3 : bound_estimate 3 = 4%Z.
Proof.
  unfold bound_estimate. apply ceil_unique.
  assert (Hlo := ln_3_lower). assert (Hhi := ln_3_upper).
  rewrite estimate_factored by lra.
  assert (H0 : 1 < ln (3 * ln 3)).
  { apply ln_lower. assert (He := exp_le_3). lra. }
  assert (H1 : ln (3 * ln 3) <= 4 / 3).
  { apply ln_upper; [lra|].
    replace (4 / 3) with (INR 8 * (1 / 6)) by (simpl; lra).
    eapply Rle_trans; [| apply exp_lower; lra]. lra. }
  simpl. lra.
Qed.

(** From 2 on the estimate is positive. *)
Lemma bound_estimate_pos (n : Z) : (2 <= n)%Z -> (1 <= bound_estimate n)%Z.
Proof.
  intros Hn. unfold bound_estimate.
  assert (Hx : 2 <= IZR n) by (apply IZR_le in Hn; exact Hn).
  assert (Hl := ln_from_2 _ Hx).
  rewrite estimate_factored by lra.
  apply (ceil_lower _ 0).
  apply Rmult_lt_0_compat; [lra|].
  rewrite <- ln_1. apply ln_increasing; [lra|]. nra.
Qed.

(** A crude ceiling, enough to keep small inputs far from overflow. *)
Lemma bound_estimate_le (n : Z) : (2 <= n)%Z -> (bound_estimate n <= 2 * n * n)%Z.
Proof.
  intros Hn. unfold bound_estimate.
  assert (Hx : 2 <= IZR n) by (apply IZR_le in Hn; exact Hn).
  assert (Hl := ln_from_2 _ Hx).
  assert (H1 : ln (IZR n) <= IZR n - 1) by (apply ln_le_pred; lra).
  assert (H2 : ln (ln (IZR n)) <= ln (IZR n) - 1) by (apply ln_le_pred; lra).
  apply ceil_upper. rewrite !mult_IZR. simpl. nra.
Qed.

(** [6 ln 6 + 6 ln (ln 6)] is about 14.25: above 12 is all that is used. *)
Lemma bound_estimate_6 : (13 <= bound_estimate 6 <= 72)%Z.
Proof.
  split; [| apply (bound_estimate_le 6); lia].
  unfold bound_estimate. assert (Hl := ln_6_lower).
  rewrite estimate_factored by lra.
  apply (ceil_lower _ 12).
  assert (H2 : 2 < ln (6 * ln 6)).
  { apply ln_lower.
    replace 2 with (INR 2 * 1) by (simpl; lra).
    rewrite exp_mult_nat. assert (He := exp_le_3). assert (Hp := exp_pos 1).
    simpl. nra. }
  lra.
Qed.

Lemma ln_le_mono (x y : R) : 0 < x -> x <= y -> ln x <= ln y.
Proof.
  intros Hx [H | H].
  - left. apply ln_increasing; assumption.
  - rewrite H. right. reflexivity.
Qed.

Lemma ceil_ge (x : R) : x <= IZR (ceil x).
Proof.
  unfold ceil, Int_part. destruct (archimed (- x)) as [H1 H2].
  rewrite opp_IZR, minus_IZR. simpl. lra.
Qed.

Lemma ceil_mono (x y : R) : x <= y -> (ceil x <= ceil y)%Z.
Proof.
  intros H. apply ceil_upper. apply Rle_trans with y; [exact H | apply ceil_ge].
Qed.

(** The estimate grows with [n]. *)
Lemma bound_estimate_mono (a n : Z) :
  (2 <= a <= n)%Z -> (bound_estimate a <= bound_estimate n)%Z.
Proof.
  intros [Ha Han]. unfold bound_estimate. apply ceil_mono.
  assert (Hx : 2 <= IZR a) by (apply IZR_le in Ha; exact Ha).
  assert (Hxy : IZR a <= IZR n) by (apply IZR_le; exact Han).
  assert (Hlx := ln_from_2 _ Hx).
  assert (Hly := ln_from_2 (IZR n) ltac:(lra)).
  rewrite !estimate_factored by lra.
  assert (Hl : ln (IZR a) <= ln (IZR n)) by (apply ln_le_mono; lra).
  assert (H1 : 1 < IZR a * ln (IZR a)) by nra.
  assert (Hp : IZR a * ln (IZR a) <= IZR n * ln (IZR n)) by nra.
  assert (H0 : 0 < ln (IZR a * ln (IZR a))).
  { rewrite <- ln_1. apply ln_increasing; lra. }
  assert (Hll : ln (IZR a * ln (IZR a)) <= ln (IZR n * ln (IZR n)))
    by (apply ln_le_mono; lra).
  nra.
Qed.

(** *** Certified bounds of [exp] *)

Lemma FRAC_pos : 0 < IZR FRAC.
Proof. apply IZR_lt. reflexivity. Qed.

Lemma SCALE_pos : 0 < IZR SCALE.
Proof. apply IZR_lt. reflexivity. Qed.

Lemma div_up_ge (x d : Z) : (0 < d)%Z -> (x <= (x + d - 1) / d * d)%Z.
Proof.
  intros Hd.
  assert (H := Z.div_mod (x + d - 1) d ltac:(lia)).
  assert (H2 := Z.mod_pos_bound (x + d - 1) d Hd). nia.
Qed.

Lemma square_up_sound (y : R) (U : Z) :
  exp y <= IZR U / IZR FRAC -> exp (2 * y) <= IZR (square_up U) / IZR FRAC.
Proof.
  intros H. assert (HF := FRAC_pos). assert (Hp := exp_pos y).
  replace (2 * y) with (y + y) by ring. rewrite exp_plus.
  assert (HU : exp y * exp y <= (IZR U / IZR FRAC) * (IZR U / IZR FRAC)).
  { apply Rmult_le_compat; lra. }
  eapply Rle_trans; [exact HU|].
  assert (Hd := div_up_ge (U * U) FRAC ltac:(reflexivity)).
  apply IZR_le in Hd. rewrite !mult_IZR in Hd. fold (square_up U) in Hd.
  revert Hd HF. generalize (IZR (square_up U)) as V. generalize (IZR U) as W.
  generalize (IZR FRAC) as F. clear. intros F W V Hd HF.
  apply Rmult_le_reg_r with (F * F); [nra|].
  replace (W / F * (W / F) * (F * F)) with (W * W) by (field; lra).
  replace (V / F * (F * F)) with (V * F) by (field; lra).
  exact Hd.
Qed.

Lemma square_up_iter_sound (m : nat) (y : R) (U : Z) :
  exp y <= IZR U / IZR FRAC ->
  exp (2 ^ m * y) <= IZR (square_up_iter m U) / IZR FRAC.
Proof.
  revert y U. induction m as [|m IH]; intros y U H; simpl.
  - now rewrite Rmult_1_l.
  - replace (2 * 2 ^ m * y) with (2 ^ m * (2 * y)) by ring.
    apply IH. now apply square_up_sound.
Qed.

Lemma exp_ub_sound (m : nat) (num den : Z) :
  (0 < den)%Z -> (num < den * 2 ^ Z.of_nat m)%Z ->
  exp (IZR num / IZR den) <= IZR (exp_ub m num den) / IZR FRAC.
Proof.
  intros Hden Hnum. unfold exp_ub.
  set (q := (den * 2 ^ Z.of_nat m)%Z) in *.
  assert (Hq : (0 < q - num)%Z) by lia.
  assert (HF := FRAC_pos).
  assert (Hpow : IZR q = IZR den * 2 ^ m).
  { unfold q. rewrite mult_IZR. f_equal. rewrite <- (pow_IZR 2 m). reflexivity. }
  assert (H2m : 0 < 2 ^ m) by (apply pow_lt; lra).
  assert (Hdr : 0 < IZR den) by (apply IZR_lt; exact Hden).
  replace (IZR num / IZR den) with (2 ^ m * (IZR num / IZR q))
    by (rewrite Hpow; field; split; lra).
  apply square_up_iter_sound.
  assert (Hqr : 0 < IZR q) by (rewrite Hpow; nra).
  assert (Hqn : 0 < IZR q - IZR num) by (rewrite <- minus_IZR; apply IZR_lt; exact Hq).
  assert (Hx : IZR num / IZR q < 1).
  { apply Rmult_lt_reg_r with (IZR q); [exact Hqr|].
    replace (IZR num / IZR q * IZR q) with (IZR num) by (field; lra). lra. }
  eapply Rle_trans; [apply exp_le_inv_1m; exact Hx|].
  assert (Hd := div_up_ge (FRAC * q) (q - num) Hq).
  apply IZR_le in Hd. rewrite !mult_IZR, minus_IZR in Hd.
  revert Hd HF Hqn Hqr.
  generalize (IZR ((FRAC * q + (q - num) - 1) / (q - num))) as V.
  generalize (IZR FRAC) as F. generalize (IZR q) as Q. generalize (IZR num) as N.
  clear. intros N Q F V Hd HF Hqn Hqr.
  replace (/ (1 - N / Q)) with (Q / (Q - N)) by (field; lra).
  apply Rmult_le_reg_r with ((Q - N) * F); [nra|].
  replace (Q / (Q - N) * ((Q - N) * F)) with (F * Q) by (field; lra).
  replace (V / F * ((Q - N) * F)) with (V * (Q - N)) by (field; lra).
  exact Hd.
Qed.

Lemma exp_lt_sound (c num den : Z) :
  (0 < den)%Z -> exp_lt c num den = true ->
  exp (IZR c / IZR SCALE) < IZR num / IZR den.
Proof.
  intros Hden H. unfold exp_lt in H. apply andb_true_iff in H.
  destruct H as [Hc Hlt]. apply Z.ltb_lt in Hc, Hlt.
  assert (Hs := exp_ub_sound SQUARINGS c SCALE eq_refl Hc).
  assert (HF := FRAC_pos). assert (Hd : 0 < IZR den) by (apply IZR_lt; exact Hden).
  apply IZR_lt in Hlt. rewrite !mult_IZR in Hlt.
  revert Hs Hlt HF.
  generalize (IZR (exp_ub SQUARINGS c SCALE)) as U. generalize (IZR FRAC) as F.
  generalize (exp (IZR c / IZR SCALE)) as e. generalize (IZR num) as x.
  clear Hc. intros x e F U Hs Hlt HF.
  apply Rle_lt_trans with (U / F); [exact Hs|].
  apply Rmult_lt_reg_r with (F * IZR den); [nra|].
  replace (U / F * (F * IZR den)) with (U * IZR den) by (field; lra).
  replace (x / IZR den * (F * IZR den)) with (x * F) by (field; lra).
  exact Hlt.
Qed.

(** A certificate gives a lower bound of the estimate. *)
Lemma check_cert_sound (a c1 c2 : Z) :
  (2 <= a)%Z -> check_cert a c1 c2 = true ->
  (a * c2 / SCALE + 1 <= bound_estimate a)%Z.
Proof.
  intros Ha H. unfold check_cert in H.
  apply andb_true_iff in H. destruct H as [H H3].
  apply andb_true_iff in H. destruct H as [H1 H2].
  apply Z.ltb_lt in H1.
  apply exp_lt_sound in H2; [|reflexivity]. apply exp_lt_sound in H3; [|reflexivity].
  assert (HS := SCALE_pos).
  assert (Hx : 2 <= IZR a) by (apply IZR_le in Ha; exact Ha).
  assert (Hc1 : 0 < IZR c1) by (apply IZR_lt; exact H1).
  assert (L1 : IZR c1 / IZR SCALE < ln (IZR a)).
  { apply ln_lower. unfold Rdiv in H2 at 2. rewrite Rinv_1, Rmult_1_r in H2. exact H2. }
  assert (Hpos : 0 < IZR a * (IZR c1 / IZR SCALE)).
  { apply Rmult_lt_0_compat; [lra|]. apply Rdiv_lt_0_compat; lra. }
  assert (L2 : IZR c2 / IZR SCALE < ln (IZR a * ln (IZR a))).
  { apply Rlt_le_trans with (ln (IZR a * (IZR c1 / IZR SCALE))).
    - apply ln_lower. rewrite mult_IZR in H3.
      replace (IZR a * (IZR c1 / IZR SCALE)) with (IZR a * IZR c1 / IZR SCALE)
        by (field; lra).
      exact H3.
    - apply ln_le_mono; [exact Hpos | nra]. }
  unfold bound_estimate.
  assert (Hl := ln_from_2 _ Hx).
  rewrite estimate_factored by lra.
  apply ceil_lower.
  apply Rle_lt_trans with (IZR a * (IZR c2 / IZR SCALE)); [| nra].
  assert (Hfloor : (a * c2 / SCALE * SCALE <= a * c2)%Z).
  { assert (Hm := Z.div_mod (a * c2) SCALE ltac:(discriminate)).
    assert (Hb := Z.mod_pos_bound (a * c2) SCALE ltac:(reflexivity)). lia. }
  apply IZR_le in Hfloor. rewrite !mult_IZR in Hfloor.
  apply Rmult_le_reg_r with (IZR SCALE); [exact HS|].
  replace (IZR a * (IZR c2 / IZR SCALE) * IZR SCALE) with (IZR a * IZR c2)
    by (field; lra).
  exact Hfloor.
Qed.

End Estimate.

(** *** The estimate from 4 to 10000 *)

(** A chain that checks covers its range. *)
Lemma check_chain_sound (cs : list (Z * Z * Z)) (a cur cnt n : Z) (fl : list bool) :
  check_chain cs a cur cnt fl = true ->
  2 <= a -> 0 <= cur -> cnt <= pi cur -> flags_sound cur fl ->
  a <= n <= chain_end cs a ->
  n <= pi (bound_estimate n).
Proof.
  revert a cur cnt fl.
  induction cs as [|[[b c1] c2] cs IH]; intros a cur cnt fl H Ha Hcur Hcnt Hfl Hn.
  - simpl in Hn. lia.
  - cbn [check_chain chain_end] in H, Hn.
    set (L := a * c2 / SCALE + 1) in *.
    destruct (count_flags_sound (Z.to_nat (L - cur)) fl cur cnt Hfl Hcur Hcnt)
      as [Hpi Hfl'].
    destruct (count_flags (Z.to_nat (L - cur)) fl cnt) as [cnt' fl'].
    simpl in Hpi, Hfl'.
    apply andb_true_iff in H. destruct H as [H Hrest].
    apply andb_true_iff in H. destruct H as [H Hb]. apply Z.leb_le in Hb.
    apply andb_true_iff in H. destruct H as [H Hab]. apply Z.leb_le in Hab.
    apply andb_true_iff in H. destruct H as [H HL]. apply Z.leb_le in HL.
    assert (Hest := check_cert_sound a c1 c2 Ha H). fold L in Hest.
    replace (cur + Z.of_nat (Z.to_nat (L - cur))) with L in Hpi, Hfl' by lia.
    destruct (Z_le_gt_dec n b) as [Hle | Hgt].
    + apply Z.le_trans with b; [exact Hle|].
      apply Z.le_trans with (pi L); [lia|].
      apply pi_mono. apply Z.le_trans with (bound_estimate a); [exact Hest|].
      apply bound_estimate_mono. lia.
    + apply (IH (b + 1) L cnt' fl' Hrest); [lia | lia | exact Hpi | exact Hfl' | lia].
Qed.

Lemma chain_checks : check_chain chain 4 1 0 (flags (Z.to_nat 108500)) = true.
Proof. vm_compute. reflexivity. Qed.

Lemma chain_covers : 10000 <= chain_end chain 4.
Proof. vm_compute. discriminate. Qed.

(** For every [n] from 4 to 10000 the estimate is at least the [n]-th
    prime. *)
Lemma estimate_reaches_prime (n : Z) :
  4 <= n <= 10000 -> n <= pi (bound_estimate n).
Proof.
  intros Hn.
  apply (check_chain_sound chain 4 1 0 n (flags (Z.to_nat 108500)) chain_checks);
    try lia.
  - reflexivity.
  - apply flags_are_sound. rewrite Z2Nat.id by lia. lia.
  - assert (H := chain_covers). lia.
Qed.

(** ** The function *)

Lemma double_to_int_some (z : Z) :
  INT_MIN <= z <= INT_MAX -> double_to_int z = Some z.
Proof.
  intros H. unfold double_to_int.
  replace (INT_MIN <=? z) with true by (symmetry; apply Z.leb_le; lia).
  replace (z <=? INT_MAX) with true by (symmetry; apply Z.leb_le; lia).
  reflexivity.
Qed.

Lemma double_to_int_inv (z limit : Z) :
  double_to_int z = Some limit -> limit = z /\ INT_MIN <= z <= INT_MAX.
Proof.
  unfold double_to_int.
  destruct (Z.leb_spec INT_MIN z); destruct (Z.leb_spec z INT_MAX);
    simpl; try discriminate.
  intros [= <-]. lia.
Qed.

(** From 2 on, and while the estimate fits an [int], the function is its
    body run on the estimate. *)
Lemma sieve_of_eratosthenes_body (heap_grants : Z -> bool) (stray : Z -> option Z)
      (fuel : nat) (n : Z) :
  2 <= n -> bound_estimate n <= INT_MAX ->
  sieve_of_eratosthenes heap_grants stray fuel n =
  sieve_body heap_grants stray fuel n (bound_estimate n).
Proof.
  intros Hn Hb. unfold sieve_of_eratosthenes.
  replace (n <=? 1) with false by (symmetry; apply Z.leb_gt; lia).
  assert (H1 := bound_estimate_pos n Hn).
  rewrite double_to_int_some by (unfold INT_MIN; lia). reflexivity.
Qed.

(** The function ends on every input. *)
Lemma sieve_of_eratosthenes_ends (heap_grants : Z -> bool) (stray : Z -> option Z)
      (fuel : nat) (n : Z) :
  (Z.to_nat (2 * bound_estimate n) + 6 <= fuel)%nat ->
  snd (sieve_of_eratosthenes heap_grants stray fuel n) <> NoFuel.
Proof.
  intros Hfuel. unfold sieve_of_eratosthenes.
  destruct (n <=? 1); [discriminate|].
  destruct (double_to_int (bound_estimate n)) as [limit|] eqn:E; [|discriminate].
  apply double_to_int_inv in E. destruct E as [-> Hr].
  apply sieve_body_ends; assumption.
Qed.

(** Once it has ended, more fuel gives the same events and the same result. *)
Lemma sieve_of_eratosthenes_fuel_le (heap_grants : Z -> bool) (stray : Z -> option Z)
      (fuel fuel' : nat) (n : Z) :
  (fuel <= fuel')%nat ->
  snd (sieve_of_eratosthenes heap_grants stray fuel n) <> NoFuel ->
  sieve_of_eratosthenes heap_grants stray fuel' n =
  sieve_of_eratosthenes heap_grants stray fuel n.
Proof.
  intros Hle. unfold sieve_of_eratosthenes.
  destruct (n <=? 1); [reflexivity|].
  destruct (double_to_int (bound_estimate n)) as [limit|]; [|reflexivity].
  unfold sieve_body.
  destruct (calloc heap_grants (wrap (limit + 1)) 1) as [buf|]; [|reflexivity].
  intros H. rewrite (scan_fuel_le stray fuel fuel'); [reflexivity | exact Hle |].
  destruct (scan stray fuel n limit 1 2 buf) as [t [[e i]| |]]; simpl in *;
    [discriminate | discriminate | contradiction].
Qed.

(** Whenever the estimate reaches the [n]-th prime, and is small enough for
    the marking not to overflow, the function returns that prime. *)
Lemma sieve_of_eratosthenes_adequate (heap_grants : Z -> bool) (stray : Z -> option Z)
      (fuel : nat) (n : Z) (buf : list Z) :
  2 <= n <= INT_MAX -> bound_estimate n < 2 ^ 30 - 1 ->
  calloc heap_grants (wrap (bound_estimate n + 1)) 1 = Some buf ->
  (Z.to_nat (2 * bound_estimate n) + 4 <= fuel)%nat ->
  n <= pi (bound_estimate n) ->
  exists p, nth_prime_is n p /\
            snd (sieve_of_eratosthenes heap_grants stray fuel n) = Val (Return p).
Proof.
  intros Hn Hb Hc Hfuel Hpi.
  assert (H1 := bound_estimate_pos n ltac:(lia)).
  rewrite sieve_of_eratosthenes_body by (unfold INT_MAX; lia).
  destruct (sieve_body_found heap_grants stray fuel n (bound_estimate n) buf)
    as (p & Hp & _ & E); [lia | lia | exact Hc | exact Hfuel | exact Hpi |].
  exists p. split; assumption.
Qed.

(** Whenever it does not, the outcome is decided by the byte after the
    block. *)
Lemma sieve_of_eratosthenes_short (heap_grants : Z -> bool) (stray : Z -> option Z)
      (fuel : nat) (n : Z) (buf : list Z) :
  2 <= n <= INT_MAX -> bound_estimate n < 2 ^ 30 - 1 ->
  calloc heap_grants (wrap (bound_estimate n + 1)) 1 = Some buf ->
  (Z.to_nat (2 * bound_estimate n) + 4 <= fuel)%nat ->
  pi (bound_estimate n) < n ->
  snd (sieve_of_eratosthenes heap_grants stray fuel n) =
  match stray (bound_estimate n + 1) with
  | None => Undef (OutOfBounds (bound_estimate n + 1))
  | Some b =>
      if (b =? 0) && (1 + pi (bound_estimate n) =? n)
      then Val (Return (bound_estimate n + 1))
      else Val (Return (bound_estimate n + 2))
  end.
Proof.
  intros Hn Hb Hc Hfuel Hpi.
  assert (H1 := bound_estimate_pos n ltac:(lia)).
  rewrite sieve_of_eratosthenes_body by (unfold INT_MAX; lia).
  apply (sieve_body_beyond heap_grants stray fuel n (bound_estimate n) buf);
    [lia | lia | exact Hc | exact Hfuel | exact Hpi].
Qed.

Lemma calloc_always (limit : Z) :
  0 <= limit < INT_MAX ->
  calloc always (wrap (limit + 1)) 1 = Some (repeat 0 (Z.to_nat (limit + 1))).
Proof.
  intros Hl. unfold calloc, always.
  rewrite wrap_small by (unfold INT_MIN, INT_MAX in *; lia).
  unfold to_size_t. unfold INT_MAX in Hl. rewrite !Z.mod_small by lia.
  rewrite Z.mul_1_r.
  replace (limit + 1 <? 2 ^ 64) with true by (symmetry; apply Z.ltb_lt; lia).
  reflexivity.
Qed.

(** Where loads outside the block trap, a call that returns at all returns
    the [n]-th prime, for every [n] whose estimate an [int] below [INT_MAX]
    holds. *)
Lemma returned_when_trapping (heap_grants : Z -> bool) (stray : Z -> option Z)
      (fuel : nat) (n v : Z) :
  (forall k, stray k = None) ->
  1 <= n <= INT_MAX -> bound_estimate n < INT_MAX ->
  snd (sieve_of_eratosthenes heap_grants stray fuel n) = Val (Return v) ->
  nth_prime_is n v.
Proof.
  intros Hs Hn Hb. destruct (Z.eq_dec n 1) as [-> | N1].
  { intros [= <-]. split; [apply primeb_spec|]; reflexivity. }
  assert (H1 := bound_estimate_pos n ltac:(lia)).
  rewrite sieve_of_eratosthenes_body by lia.
  unfold sieve_body.
  destruct (calloc heap_grants (wrap (bound_estimate n + 1)) 1) as [buf|] eqn:Hc;
    [|discriminate].
  assert (Inv : scan_inv n (bound_estimate n) 1 2 buf)
    by (apply (scan_inv_fresh heap_grants); [lia | lia | exact Hc]).
  destruct (scan stray fuel n (bound_estimate n) 1 2 buf) as [t [[e i]| |]] eqn:E;
    try discriminate.
  simpl. intros [= <-].
  assert (Hv : snd (scan stray fuel n (bound_estimate n) 1 2 buf) = Val (e, i))
    by now rewrite E.
  apply (scan_partial stray (Z.to_nat (bound_estimate n - 1)) fuel n
           (bound_estimate n) 1 2 buf e i Hs) in Hv; [| lia | lia | exact Inv | lia].
  apply Hv.
Qed.

(** The first and the sixth prime are found. *)
Lemma first_prime (heap_grants : Z -> bool) (stray : Z -> option Z) (fuel : nat) :
  sieve_of_eratosthenes heap_grants stray fuel 1 = ([], Val (Return 2)).
Proof. reflexivity. Qed.

Lemma sixth_prime (stray : Z -> option Z) (fuel : nat) :
  snd (sieve_of_eratosthenes always stray (148 + fuel) 6) = Val (Return 13).
Proof.
  assert (H6 := bound_estimate_6).
  destruct (sieve_of_eratosthenes_adequate always stray (148 + fuel) 6
              (repeat 0 (Z.to_nat (bound_estimate 6 + 1)))) as (p & Hp & E).
  - unfold INT_MAX. lia.
  - lia.
  - apply calloc_always. unfold INT_MAX. lia.
  - lia.
  - apply Z.le_trans with (pi 13); [vm_compute; discriminate | apply pi_mono; lia].
  - assert (H13 : nth_prime_is 6 13).
    { split; [apply primeb_spec|]; vm_compute; reflexivity. }
    rewrite E. now rewrite (nth_prime_unique 6 p 13 Hp H13).
Qed.

(** Successive ranks give successive primes wherever both estimates are
    adequate. *)
Lemma adequate_increasing (heap_grants : Z -> bool) (stray : Z -> option Z)
      (fuel : nat) (n a b : Z) (buf buf' : list Z) :
  2 <= n < INT_MAX -> bound_estimate n < 2 ^ 30 - 1 ->
  bound_estimate (n + 1) < 2 ^ 30 - 1 ->
  calloc heap_grants (wrap (bound_estimate n + 1)) 1 = Some buf ->
  calloc heap_grants (wrap (bound_estimate (n + 1) + 1)) 1 = Some buf' ->
  (Z.to_nat (2 * bound_estimate n) + 4 <= fuel)%nat ->
  (Z.to_nat (2 * bound_estimate (n + 1)) + 4 <= fuel)%nat ->
  n <= pi (bound_estimate n) -> n + 1 <= pi (bound_estimate (n + 1)) ->
  snd (sieve_of_eratosthenes heap_grants stray fuel n) = Val (Return a) ->
  snd (sieve_of_eratosthenes heap_grants stray fuel (n + 1)) = Val (Return b) ->
  a < b.
Proof.
  intros Hn Hb Hb' Hc Hc' Hf Hf' Hpi Hpi' Ea Eb.
  destruct (sieve_of_eratosthenes_adequate heap_grants stray fuel n buf)
    as (p & Hp & E); [lia | assumption | assumption | assumption | assumption |].
  destruct (sieve_of_eratosthenes_adequate heap_grants stray fuel (n + 1) buf')
    as (q & Hq & E'); [lia | assumption | assumption | assumption | assumption |].
  rewrite E in Ea. rewrite E' in Eb. injection Ea as <-. injection Eb as <-.
  apply (nth_prime_increasing n (n + 1) p q Hp Hq). lia.
Qed.

(** From the fourth to the ten-thousandth prime the function is right: the
    estimate reaches the prime and is far from any overflow. *)
Lemma nth_prime_4_to_10000 (heap_grants : Z -> bool) (stray : Z -> option Z)
      (fuel : nat) (n : Z) (buf : list Z) :
  4 <= n <= 10000 ->
  calloc heap_grants (wrap (bound_estimate n + 1)) 1 = Some buf ->
  (Z.to_nat (2 * bound_estimate n) + 4 <= fuel)%nat ->
  exists p, nth_prime_is n p /\
            snd (sieve_of_eratosthenes heap_grants stray fuel n) = Val (Return p).
Proof.
  intros Hn Hc Hfuel.
  assert (Hle := bound_estimate_le n ltac:(lia)).
  apply (sieve_of_eratosthenes_adequate heap_grants stray fuel n buf);
    [unfold INT_MAX; lia | nia | exact Hc | exact Hfuel
     | apply estimate_reaches_prime; exact Hn].
Qed.

(** There every access is inside the block. *)
Lemma within_block_4_to_10000 (heap_grants : Z -> bool) (stray : Z -> option Z)
      (fuel : nat) (n : Z) (buf : list Z) :
  4 <= n <= 10000 ->
  calloc heap_grants (wrap (bound_estimate n + 1)) 1 = Some buf ->
  Forall (within_block (bound_estimate n))
         (fst (sieve_of_eratosthenes heap_grants stray fuel n)).
Proof.
  intros Hn Hc.
  assert (Hle := bound_estimate_le n ltac:(lia)).
  assert (H1 := bound_estimate_pos n ltac:(lia)).
  assert (Hb : bound_estimate n < 2 ^ 30 - 1) by nia.
  rewrite sieve_of_eratosthenes_body by (unfold INT_MAX; lia).
  apply (sieve_body_within heap_grants stray fuel n (bound_estimate n) buf);
    [unfold INT_MAX; lia | lia | exact Hc | apply estimate_reaches_prime; exact Hn].
Qed.

(** And its results grow strictly. *)
Lemma increasing_4_to_9999 (heap_grants : Z -> bool) (stray : Z -> option Z)
      (fuel : nat) (n a b : Z) (buf buf' : list Z) :
  4 <= n <= 9999 ->
  calloc heap_grants (wrap (bound_estimate n + 1)) 1 = Some buf ->
  calloc heap_grants (wrap (bound_estimate (n + 1) + 1)) 1 = Some buf' ->
  (Z.to_nat (2 * bound_estimate n) + 4 <= fuel)%nat ->
  (Z.to_nat (2 * bound_estimate (n + 1)) + 4 <= fuel)%nat ->
  snd (sieve_of_eratosthenes heap_grants stray fuel n) = Val (Return a) ->
  snd (sieve_of_eratosthenes heap_grants stray fuel (n + 1)) = Val (Return b) ->
  a < b.
Proof.
  intros Hn Hc Hc' Hf Hf' Ea Eb.
  assert (Hle := bound_estimate_le n ltac:(lia)).
  assert (Hle' := bound_estimate_le (n + 1) ltac:(lia)).
  apply (adequate_increasing heap_grants stray fuel n a b buf buf');
    try assumption; try (unfold INT_MAX; lia); try nia;
    apply estimate_reaches_prime; lia.
Qed.

(** ** The events of a call and the block they leave *)

Lemma replay_app (t1 t2 : list event) (buf : list Z) :
  replay (t1 ++ t2) buf = replay t2 (replay t1 buf).
Proof.
  revert buf. induction t1 as [|e t1 IH]; intros buf; [reflexivity|].
  destruct e; simpl; apply IH.
Qed.

(** Stores of a value other than 0 leave every set cell set. *)
Lemma replay_keeps (t : list event) (buf : list Z) (k : nat) :
  (forall idx v, In (EvStore idx v) t -> v <> 0) ->
  nth k buf 0 <> 0 -> nth k (replay t buf) 0 <> 0.
Proof.
  revert buf. induction t as [|e t IH]; intros buf Hst Hk; [exact Hk|].
  assert (Hst' : forall idx v, In (EvStore idx v) t -> v <> 0)
    by (intros idx v Hin; apply (Hst idx v); now right).
  destruct e; simpl; try (apply IH; assumption).
  apply IH; [exact Hst'|].
  destruct (store buf idx v) as [buf'|] eqn:Es; [|exact Hk].
  apply store_inv in Es. destruct Es as [Hin ->].
  destruct (Nat.eq_dec (Z.to_nat idx) k) as [<- | Hne].
  - rewrite nth_set_nth_eq by lia. apply (Hst idx v). now left.
  - rewrite nth_set_nth_ne by exact Hne. exact Hk.
Qed.

(** The block the marking loop hands back is the replay of its events. *)
Lemma mark_multiples_replay (fuel : nat) (limit i j : Z) (buf buf' : list Z) :
  snd (mark_multiples fuel limit i j buf) = Val buf' ->
  replay (fst (mark_multiples fuel limit i j buf)) buf = buf'.
Proof.
  revert j buf. induction fuel as [|fuel IH]; intros j buf; [discriminate|].
  rewrite mark_multiples_S. destruct (j <=? limit).
  - destruct (store buf j 1) as [buf1|] eqn:Es; [|discriminate].
    specialize (IH (wrap (j + i)) buf1).
    destruct (mark_multiples fuel limit i (wrap (j + i)) buf1) as [t r].
    simpl in *. rewrite Es. exact IH.
  - simpl. now intros [= <-].
Qed.

Lemma sieve_of_eratosthenes_stores (heap_grants : Z -> bool) (stray : Z -> option Z)
      (fuel : nat) (n idx v : Z) :
  In (EvStore idx v) (fst (sieve_of_eratosthenes heap_grants stray fuel n)) -> v = 1.
Proof.
  unfold sieve_of_eratosthenes. destruct (n <=? 1); [intros []|].
  destruct (double_to_int (bound_estimate n)) as [limit|]; [|intros []].
  apply sieve_body_stores.
Qed.

(** The second prime: the estimate is 1, the block has the cells 0 and 1,
    and the scan starts at cell 2. *)
Lemma second_prime (stray : Z -> option Z) (fuel : nat) :
  sieve_of_eratosthenes always stray (3 + fuel) 2 =
  match stray 2 with
  | None => ([EvCalloc 2 1; EvLoad 2], Undef (OutOfBounds 2))
  | Some _ => ([EvCalloc 2 1; EvLoad 2; EvFree], Val (Return 3))
  end.
Proof.
  rewrite sieve_of_eratosthenes_body;
    rewrite ?bound_estimate_2; [| lia | unfold INT_MAX; lia].
  unfold sieve_body.
  change (calloc always (wrap (1 + 1)) 1) with (Some [0; 0]).
  change (3 + fuel)%nat with (S (S (S fuel))). cbv iota beta.
  change (wrap (1 + 1)) with 2.
  rewrite scan_S.
  change (2 <=? wrap (1 + 1)) with true. cbv iota.
  change (load stray [0; 0] 2) with (stray 2).
  destruct (stray 2) as [b|]; [|reflexivity].
  change (wrap (2 + 1)) with 3. change (wrap (2 * 2)) with 4.
  change (1 =? 2) with false. cbv iota.
  rewrite (mark_multiples_S (S fuel)). change (4 <=? 1) with false. cbv iota.
  rewrite !(scan_S stray (S fuel)). change (3 <=? wrap (1 + 1)) with false. cbv iota.
  destruct (b =? 0); reflexivity.
Qed.

(** The third prime: the estimate is 4, below the third prime, and the scan
    goes on to cell 5 of a block of cells 0 to 4. *)
Lemma third_prime (stray : Z -> option Z) (fuel : nat) :
  snd (sieve_of_eratosthenes always stray (12 + fuel) 3) =
  match stray 5 with
  | None => Undef (OutOfBounds 5)
  | Some b => if b =? 0 then Val (Return 5) else Val (Return 6)
  end.
Proof.
  rewrite (sieve_of_eratosthenes_short always stray (12 + fuel) 3 (repeat 0 5));
    rewrite ?bound_estimate_3;
    [| unfold INT_MAX; lia | lia | reflexivity | simpl; lia | vm_compute; reflexivity].
  change (4 + 1) with 5. change (4 + 2) with 6.
  destruct (stray 5) as [b|]; [|reflexivity].
  change (1 + pi 4 =? 3) with true. rewrite andb_true_r. reflexivity.
Qed.

(** Where loads outside the block are tolerated and the allocator grants
    every request, the first ten thousand results grow strictly, whatever
    the stray bytes are. *)
Lemma increasing_when_tolerated (stray : Z -> option Z) (fuel : nat) (n : Z) :
  (forall k, stray k <> None) -> 1 <= n <= 9999 ->
  (Z.to_nat (2 * bound_estimate (n + 1)) + 12 <= fuel)%nat ->
  exists a b,
    snd (sieve_of_eratosthenes always stray fuel n) = Val (Return a) /\
    snd (sieve_of_eratosthenes always stray fuel (n + 1)) = Val (Return b) /\
    a < b.
Proof.
  intros Hs Hn Hfuel.
  assert (Hfour : forall m, 4 <= m <= 10000 ->
            (Z.to_nat (2 * bound_estimate m) + 4 <= fuel)%nat ->
            exists p, nth_prime_is m p /\
                      snd (sieve_of_eratosthenes always stray fuel m) = Val (Return p)).
  { intros m Hm Hf.
    assert (Hle := bound_estimate_le m ltac:(lia)).
    assert (H1 := bound_estimate_pos m ltac:(lia)).
    apply (nth_prime_4_to_10000 always stray fuel m
             (repeat 0 (Z.to_nat (bound_estimate m + 1)))); [exact Hm | | exact Hf].
    apply calloc_always. unfold INT_MAX. nia. }
  assert (Htwo : snd (sieve_of_eratosthenes always stray fuel 2) = Val (Return 3)).
  { replace fuel with (3 + (fuel - 3))%nat by lia. rewrite second_prime.
    specialize (Hs 2). destruct (stray 2); [reflexivity | contradiction]. }
  assert (Hthree : exists c, 5 <= c <= 6 /\
            snd (sieve_of_eratosthenes always stray fuel 3) = Val (Return c)).
  { replace fuel with (12 + (fuel - 12))%nat by lia. rewrite third_prime.
    specialize (Hs 5). destruct (stray 5) as [b|]; [|contradiction].
    destruct (b =? 0); [exists 5 | exists 6]; (split; [lia | reflexivity]). }
  destruct (Z.eq_dec n 1) as [-> | N1].
  { exists 2, 3. split; [reflexivity|]. split; [exact Htwo | lia]. }
  destruct (Z.eq_dec n 2) as [-> | N2].
  { destruct Hthree as (c & Hc & E). exists 3, c.
    split; [exact Htwo|]. split; [exact E | lia]. }
  assert (Hmono := bound_estimate_mono n (n + 1) ltac:(lia)).
  assert (Hpos := bound_estimate_pos n ltac:(lia)).
  destruct (Hfour (n + 1) ltac:(lia) ltac:(lia)) as (q & Hq & Eq).
  destruct (Z.eq_dec n 3) as [-> | N3].
  { destruct Hthree as (c & Hc & E). exists c, q.
    split; [exact E|]. split; [exact Eq|].
    assert (H7 : nth_prime_is 4 7).
    { split; [apply primeb_spec|]; vm_compute; reflexivity. }
    change (3 + 1) with 4 in Hq.
    rewrite (nth_prime_unique 4 q 7 Hq H7). lia. }
  destruct (Hfour n ltac:(lia) ltac:(lia)) as (p & Hp & Ep).
  exists p, q. split; [exact Ep|]. split; [exact Eq|].
  apply (nth_prime_increasing n (n + 1) p q Hp Hq). lia.
Qed.

(** ** The exhaustion edge and the bound on the loops *)

(** Whenever the scan is left through the exhaustion edge, the call returns
    the scan variable, which then is [limit + 2], and signals nothing. *)
Lemma exhausted_scan_returns_limit_plus_2
      (heap_grants : Z -> bool) (stray : Z -> option Z) (fuel : nat)
      (n : Z) (buf : list Z) (i : Z) :
  2 <= n -> bound_estimate n < INT_MAX ->
  calloc heap_grants (wrap (bound_estimate n + 1)) 1 = Some buf ->
  snd (scan stray fuel n (bound_estimate n) 1 2 buf) = Val (Exhausted, i) ->
  i = bound_estimate n + 2 /\
  snd (sieve_of_eratosthenes heap_grants stray fuel n) =
    Val (Return (bound_estimate n + 2)) /\
  ~ signals_error (snd (sieve_of_eratosthenes heap_grants stray fuel n)).
Proof.
  intros Hn Hb Hc Hs.
  assert (H1 := bound_estimate_pos n Hn).
  assert (Hi : i = bound_estimate n + 2).
  { apply scan_bound in Hs; [|unfold INT_MIN; lia].
    destruct Hs as (_ & Hs & _). specialize (Hs eq_refl).
    rewrite wrap_small in Hs by (unfold INT_MIN, INT_MAX in *; lia). lia. }
  assert (E : snd (sieve_of_eratosthenes heap_grants stray fuel n) =
              Val (Return (bound_estimate n + 2))).
  { rewrite sieve_of_eratosthenes_body by lia.
    rewrite (sieve_body_scan heap_grants stray fuel n (bound_estimate n) buf Hc).
    rewrite Hs, Hi. reflexivity. }
  split; [exact Hi|]. split; [exact E|].
  rewrite E. intros [status H]. discriminate.
Qed.

(** The two loops are bounded.  For every input there is an amount of fuel,
    [2 * limit + 6] turns of the two loops, with which the run has ended,
    and any larger amount gives the same events and the same result.  Where
    no load traps and the estimate is too small for the marking to overflow,
    the run ends in a return or in [exit(1)]. *)
Lemma every_call_ends (heap_grants : Z -> bool) (stray : Z -> option Z) (n : Z) :
  exists fuel0,
    fuel0 = (Z.to_nat (2 * bound_estimate n) + 6)%nat /\
    snd (sieve_of_eratosthenes heap_grants stray fuel0 n) <> NoFuel /\
    (forall fuel, (fuel0 <= fuel)%nat ->
       sieve_of_eratosthenes heap_grants stray fuel n =
       sieve_of_eratosthenes heap_grants stray fuel0 n) /\
    (n <= INT_MAX -> bound_estimate n < 2 ^ 30 - 1 -> (forall k, stray k <> None) ->
     exists f, snd (sieve_of_eratosthenes heap_grants stray fuel0 n) = Val f).
Proof.
  exists (Z.to_nat (2 * bound_estimate n) + 6)%nat.
  assert (He : snd (sieve_of_eratosthenes heap_grants stray
                      (Z.to_nat (2 * bound_estimate n) + 6) n) <> NoFuel)
    by (apply sieve_of_eratosthenes_ends; lia).
  split; [reflexivity|]. split; [exact He|]. split.
  - intros fuel Hle. apply sieve_of_eratosthenes_fuel_le; assumption.
  - intros Hn Hb Hs. destruct (Z_le_gt_dec n 1) as [Hsmall | Hbig].
    + exists (Return 2). unfold sieve_of_eratosthenes.
      replace (n <=? 1) with true by (symmetry; apply Z.leb_le; exact Hsmall).
      reflexivity.
    + assert (H1 := bound_estimate_pos n ltac:(lia)).
      rewrite sieve_of_eratosthenes_body by (unfold INT_MAX; lia).
      destruct (calloc heap_grants (wrap (bound_estimate n + 1)) 1) as [buf|] eqn:Hc.
      * destruct (sieve_body_defined heap_grants stray
                    (Z.to_nat (2 * bound_estimate n) + 6) n (bound_estimate n) buf)
          as [v E]; [lia | lia | exact Hc | lia | exact Hs |].
        exists (Return v). exact E.
      * exists (Exit 1). rewrite sieve_body_no_memory by exact Hc. reflexivity.
Qed.

(** * The claims of the specification *)

(** C1 (the call for the third prime, which the claim puts at 5): the
    estimate for [n = 3] is 4, below the third prime, so the scan leaves the
    block of cells 0 to 4 and loads cell 5.  Where that load traps the call
    returns nothing; where it is tolerated the call returns 5 only if the
    byte found there is 0, and 6 otherwise. *)
Theorem third_prime_depends_on_stray_byte (fuel : nat) :
  bound_estimate 3 = 4 /\
  snd (sieve_of_eratosthenes always trap (12 + fuel) 3) = Undef (OutOfBounds 5) /\
  snd (sieve_of_eratosthenes always (fun _ => Some 0) (12 + fuel) 3) = Val (Return 5) /\
  snd (sieve_of_eratosthenes always (fun _ => Some 1) (12 + fuel) 3) = Val (Return 6).
Proof.
  split; [exact bound_estimate_3|].
  rewrite !third_prime. repeat split.
Qed.

(** C2 (the call for the third prime with a non-zero byte after the block,
    where the load of that byte is tolerated): the scan runs through its
    whole range, the cells 2 to 5, without the count reaching 3, and is left
    through the exhaustion edge with the scan variable at 6.  No error is
    signalled: the call returns 6, which is beyond the range of the scan
    and not a prime. *)
Theorem exhausted_scan_returns_garbage (fuel : nat) :
  bound_estimate 3 = 4 /\
  calloc always (wrap (4 + 1)) 1 = Some (repeat 0 5) /\
  snd (scan (fun _ => Some 1) (12 + fuel) 3 4 1 2 (repeat 0 5)) = Val (Exhausted, 6) /\
  snd (sieve_of_eratosthenes always (fun _ => Some 1) (12 + fuel) 3) = Val (Return 6) /\
  ~ signals_error (snd (sieve_of_eratosthenes always (fun _ => Some 1) (12 + fuel) 3)) /\
  bound_estimate 3 + 1 < 6 /\
  ~ prime_number 6.
Proof.
  assert (E : snd (sieve_of_eratosthenes always (fun _ => Some 1) (12 + fuel) 3) =
              Val (Return 6))
    by apply (third_prime (fun _ => Some 1) fuel).
  split; [exact bound_estimate_3|]. split; [reflexivity|]. split.
  { rewrite (scan_fuel_le (fun _ => Some 1) 12 (12 + fuel));
      [vm_compute; reflexivity | lia | vm_compute; discriminate]. }
  split; [exact E|]. split; [|split].
  - rewrite E. intros [status H]. discriminate.
  - rewrite bound_estimate_3. reflexivity.
  - intros H. apply primeb_spec in H. discriminate.
Qed.

(** C3 (the call for the second prime): the estimate for [n = 2] is 1, the
    block has the cells 0 and 1, and the first access of the scan is a load
    of cell 2, outside the block. *)
Theorem second_prime_loads_outside_block (stray : Z -> option Z) (fuel : nat) :
  bound_estimate 2 = 1 /\
  In (EvLoad 2) (fst (sieve_of_eratosthenes always stray (3 + fuel) 2)) /\
  ~ Forall (within_block (bound_estimate 2))
      (fst (sieve_of_eratosthenes always stray (3 + fuel) 2)) /\
  sieve_of_eratosthenes always trap (3 + fuel) 2 =
    ([EvCalloc 2 1; EvLoad 2], Undef (OutOfBounds 2)).
Proof.
  split; [exact bound_estimate_2|].
  assert (Hin : In (EvLoad 2) (fst (sieve_of_eratosthenes always stray (3 + fuel) 2))).
  { rewrite second_prime. destruct (stray 2); simpl; tauto. }
  split; [exact Hin|]. split; [| apply second_prime].
  intros H. rewrite Forall_forall in H. apply H in Hin.
  rewrite bound_estimate_2 in Hin. simpl in Hin. lia.
Qed.

(** C4: for every [n <= 1] the call returns 2 at once: no event takes
    place (no allocation, no load, no store, no message), whatever the
    allocator would have answered, and no fuel is used. *)
Theorem small_index_returns_2 (heap_grants : Z -> bool) (stray : Z -> option Z)
        (fuel : nat) (n : Z) :
  n <= 1 -> sieve_of_eratosthenes heap_grants stray fuel n = ([], Val (Return 2)).
Proof.
  intros Hn. unfold sieve_of_eratosthenes.
  replace (n <=? 1) with true by (symmetry; apply Z.leb_le; exact Hn).
  reflexivity.
Qed.

Lemma small_index_returns_2_witness :
  sieve_of_eratosthenes never trap 0 0 = ([], Val (Return 2)) /\
  sieve_of_eratosthenes never trap 0 (-5) = ([], Val (Return 2)).
Proof.
  split; apply small_index_returns_2; lia.
Defined.

(** C5 (the step from the first to the second prime): the call for the
    first prime returns 2, and the call for the second prime, in an
    environment where a load outside the block traps, ends at the load of
    cell 2 and returns nothing to compare with it. *)
Theorem second_prime_undefined_when_trapping (fuel : nat) :
  snd (sieve_of_eratosthenes always trap (3 + fuel) 1) = Val (Return 2) /\
  snd (sieve_of_eratosthenes always trap (3 + fuel) (1 + 1)) = Undef (OutOfBounds 2).
Proof.
  split; [reflexivity|].
  change (1 + 1) with 2. rewrite second_prime. reflexivity.
Qed.

(** C6 (the call for the third prime with a non-zero byte after the block):
    the call returns 6, which has the divisors 2 and 3. *)
Theorem third_prime_call_can_return_6 (fuel : nat) :
  snd (sieve_of_eratosthenes always (fun _ => Some 1) (12 + fuel) 3) = Val (Return 6) /\
  (2 | 6) /\ ~ prime_number 6.
Proof.
  split; [apply (third_prime (fun _ => Some 1))|].
  split; [exists 3; reflexivity|].
  intros H. apply primeb_spec in H. discriminate.
Qed.

(** C7: the block handed out by [calloc] has every cell clear; every store
    of the call writes 1; hence, at whatever two points of the call the
    block is looked at, a cell that is set at the earlier point is set at the
    later one. *)
Theorem marks_never_reset (heap_grants : Z -> bool) (stray : Z -> option Z)
        (fuel : nat) (n nmemb size : Z) (t1 t2 : list event) (buf : list Z) (k : nat) :
  fst (sieve_of_eratosthenes heap_grants stray fuel n) = EvCalloc nmemb size :: t1 ++ t2 ->
  calloc heap_grants nmemb size = Some buf ->
  nth k buf 0 = 0 /\
  (forall idx v, In (EvStore idx v) (t1 ++ t2) -> v = 1) /\
  (nth k (replay t1 buf) 0 <> 0 -> nth k (replay (t1 ++ t2) buf) 0 <> 0).
Proof.
  intros Ht Hc.
  assert (Hst : forall idx v, In (EvStore idx v) (t1 ++ t2) -> v = 1).
  { intros idx v Hin.
    apply (sieve_of_eratosthenes_stores heap_grants stray fuel n idx v).
    rewrite Ht. now right. }
  split; [eapply calloc_zero; exact Hc|]. split; [exact Hst|].
  rewrite replay_app. apply replay_keeps.
  intros idx v Hin. rewrite (Hst idx v); [discriminate|].
  apply in_or_app. now right.
Qed.

Lemma marks_never_reset_witness :
  nth 4 (repeat 0 5) 0 = 0 /\
  (forall idx v,
     In (EvStore idx v) ([EvLoad 2; EvStore 4 1] ++ [EvLoad 3; EvLoad 4; EvLoad 5]) ->
     v = 1) /\
  (nth 4 (replay [EvLoad 2; EvStore 4 1] (repeat 0 5)) 0 <> 0 ->
   nth 4 (replay ([EvLoad 2; EvStore 4 1] ++ [EvLoad 3; EvLoad 4; EvLoad 5])
            (repeat 0 5)) 0 <> 0).
Proof.
  apply (marks_never_reset always trap 12 3 5 1).
  - unfold sieve_of_eratosthenes. simpl (3 <=? 1). cbv iota.
    rewrite bound_estimate_3. vm_compute. reflexivity.
  - reflexivity.
Defined.

(** C8: when the allocation fails, the call ends with [exit(1)] after the
    two messages on stderr; its events are the failed allocation and the
    messages only, with no load and no store, and nothing is returned. *)
Theorem allocation_failure_exits (heap_grants : Z -> bool) (stray : Z -> option Z)
        (fuel : nat) (n : Z) :
  2 <= n -> bound_estimate n <= INT_MAX ->
  calloc heap_grants (wrap (bound_estimate n + 1)) 1 = None ->
  sieve_of_eratosthenes heap_grants stray fuel n =
  ([EvCalloc (wrap (bound_estimate n + 1)) 1; EvStderrLimit (bound_estimate n);
    EvStderr alloc_failed_msg], Val (Exit 1)).
Proof.
  intros Hn Hb Hc.
  rewrite sieve_of_eratosthenes_body by assumption.
  apply sieve_body_no_memory. exact Hc.
Qed.

Lemma allocation_failure_exits_witness :
  sieve_of_eratosthenes never trap 0 3 =
  ([EvCalloc (wrap (bound_estimate 3 + 1)) 1; EvStderrLimit (bound_estimate 3);
    EvStderr alloc_failed_msg], Val (Exit 1)).
Proof.
  apply allocation_failure_exits.
  - lia.
  - rewrite bound_estimate_3. vm_compute. discriminate.
  - rewrite bound_estimate_3. reflexivity.
Defined.

(** C9 (the call for the second prime where a load outside the block
    traps): the call neither returns nor signals an error.  Its first load
    is of cell 2, outside the block of the cells 0 and 1, and the run stops
    there, after the allocation and that load: whatever the fuel, the result
    is not a return and not [exit]. *)
Theorem second_prime_call_neither_returns_nor_signals (fuel : nat) :
  sieve_of_eratosthenes always trap (3 + fuel) 2 =
    ([EvCalloc 2 1; EvLoad 2], Undef (OutOfBounds 2)) /\
  (forall fuel' v, snd (sieve_of_eratosthenes always trap fuel' 2) <> Val (Return v)) /\
  (forall fuel', ~ signals_error (snd (sieve_of_eratosthenes always trap fuel' 2))).
Proof.
  assert (Hrun : forall fuel',
    snd (sieve_of_eratosthenes always trap fuel' 2) = NoFuel \/
    snd (sieve_of_eratosthenes always trap fuel' 2) = Undef (OutOfBounds 2)).
  { intros fuel'. destruct (Nat.lt_ge_cases fuel' 3) as [Hlt | Hge].
    - rewrite sieve_of_eratosthenes_body;
        rewrite ?bound_estimate_2; [| lia | unfold INT_MAX; lia].
      destruct fuel' as [|[|[|k]]]; [left | right | right | lia]; reflexivity.
    - right. replace fuel' with (3 + (fuel' - 3))%nat by lia.
      rewrite second_prime. reflexivity. }
  split; [apply (second_prime trap fuel)|]. split.
  - intros fuel' v. destruct (Hrun fuel') as [E | E]; rewrite E; discriminate.
  - intros fuel' [status H]. destruct (Hrun fuel') as [E | E];
      rewrite E in H; discriminate.
Qed.

(** C10: from [n = 2] on, a value returned by the call is at most
    [limit + 2], where [limit] is the estimate for [n]. *)
Theorem returned_value_at_most_limit_plus_2
        (heap_grants : Z -> bool) (stray : Z -> option Z) (fuel : nat) (n v : Z) :
  2 <= n ->
  snd (sieve_of_eratosthenes heap_grants stray fuel n) = Val (Return v) ->
  v <= bound_estimate n + 2.
Proof.
  intros Hn. unfold sieve_of_eratosthenes.
  replace (n <=? 1) with false by (symmetry; apply Z.leb_gt; lia).
  destruct (double_to_int (bound_estimate n)) as [limit|] eqn:E; [|discriminate].
  apply double_to_int_inv in E. destruct E as [-> Hr].
  assert (H1 := bound_estimate_pos n Hn).
  apply sieve_body_bound. lia.
Qed.

Lemma returned_value_at_most_limit_plus_2_witness :
  snd (sieve_of_eratosthenes always (fun _ => Some 1) 12 3) = Val (Return 6) /\
  6 <= bound_estimate 3 + 2.
Proof.
  assert (E : snd (sieve_of_eratosthenes always (fun _ => Some 1) 12 3) = Val (Return 6))
    by apply (third_prime (fun _ => Some 1) 0).
  split; [exact E|].
  apply (returned_value_at_most_limit_plus_2 always (fun _ => Some 1) 12 3 6);
    [lia | exact E].
Defined.

(** * Further properties of the code *)

(** ** Loads and stores of the two loops *)

Lemma loads_app (t1 t2 : list event) : loads (t1 ++ t2) = loads t1 ++ loads t2.
Proof.
  induction t1 as [|e t1 IH]; [reflexivity|].
  destruct e; simpl; rewrite ?IH; reflexivity.
Qed.

Lemma loads_mark_multiples (fuel : nat) (limit i j : Z) (buf : list Z) :
  loads (fst (mark_multiples fuel limit i j buf)) = [].
Proof.
  assert (H := mark_multiples_trace fuel limit i j buf).
  induction H as [|e t [idx ->] _ IH]; [reflexivity | exact IH].
Qed.

(** The scan loads the cells from [i] on, one after the other. *)
Lemma scan_loads (stray : Z -> option Z) (fuel : nat) (n limit count i : Z)
      (buf : list Z) :
  INT_MIN <= i -> wrap (limit + 1) < INT_MAX ->
  exists k,
    loads (fst (scan stray fuel n limit count i buf)) = upfrom i k /\
    forall e v, snd (scan stray fuel n limit count i buf) = Val (e, v) ->
      Z.of_nat k = v - i + match e with Break => 1 | Exhausted => 0 end.
Proof.
  intros Hi HL. revert count i buf Hi.
  induction fuel as [|fuel IH]; intros count i buf Hi.
  { exists O. split; [reflexivity | discriminate]. }
  rewrite scan_S.
  destruct (Z.leb_spec i (wrap (limit + 1))) as [Hle | Hgt].
  - assert (Hw : wrap (i + 1) = i + 1) by (apply wrap_small; unfold INT_MIN in *; lia).
    rewrite Hw.
    destruct (load stray buf i) as [b|].
    + destruct (b =? 0).
      * destruct (count =? n).
        -- exists 1%nat. split; [reflexivity|]. simpl. intros e v [= <- <-]. lia.
        -- assert (Hm := loads_mark_multiples fuel limit i (wrap (i * 2)) buf).
           destruct (mark_multiples fuel limit i (wrap (i * 2)) buf) as [t [buf'| |]].
           ++ destruct (IH (wrap (count + 1)) (i + 1) buf') as (k & Hk & Hv);
                [unfold INT_MIN in *; lia|].
              destruct (scan stray fuel n limit (wrap (count + 1)) (i + 1) buf')
                as [t' r].
              simpl in *. exists (S k). split.
              ** rewrite loads_app, Hm, Hk. reflexivity.
              ** intros e v E. specialize (Hv e v E). lia.
           ++ exists 1%nat. simpl in *. rewrite Hm. split; [reflexivity | discriminate].
           ++ exists 1%nat. simpl in *. rewrite Hm. split; [reflexivity | discriminate].
      * destruct (IH count (i + 1) buf) as (k & Hk & Hv); [unfold INT_MIN in *; lia|].
        destruct (scan stray fuel n limit count (i + 1) buf) as [t' r].
        simpl in *. exists (S k). split.
        -- rewrite Hk. reflexivity.
        -- intros e v E. specialize (Hv e v E). lia.
    + exists 1%nat. split; [reflexivity | discriminate].
  - exists O. split; [reflexivity|]. simpl. intros e v [= <- <-]. lia.
Qed.

(** The stores of the marking loop are at [j], [j + i], ... up to [limit]. *)
Lemma mark_multiples_indices (fuel : nat) (limit i j : Z) (buf : list Z) (idx v : Z) :
  1 <= i -> 0 <= j -> limit + i <= INT_MAX ->
  In (EvStore idx v) (fst (mark_multiples fuel limit i j buf)) ->
  idx <= limit /\ exists m, 0 <= m /\ idx = j + m * i.
Proof.
  intros Hi. revert j buf.
  induction fuel as [|fuel IH]; intros j buf Hj Hov; [intros []|].
  rewrite mark_multiples_S.
  destruct (Z.leb_spec j limit) as [Hle | Hgt]; [|intros []].
  assert (Hhere : EvStore j 1 = EvStore idx v ->
                  idx <= limit /\ exists m, 0 <= m /\ idx = j + m * i).
  { intros [= <- <-]. split; [exact Hle|]. exists 0. lia. }
  destruct (store buf j 1) as [buf1|].
  - rewrite wrap_small by (unfold INT_MIN; lia).
    specialize (IH (j + i) buf1 ltac:(lia) Hov).
    destruct (mark_multiples fuel limit i (j + i) buf1) as [t r].
    simpl in *. intros [E | Hin]; [exact (Hhere E)|].
    destruct (IH Hin) as (Hl & m & Hm & ->).
    split; [exact Hl|]. exists (m + 1). lia.
  - simpl. intros [E | []]. exact (Hhere E).
Qed.

(** Every store of the scan is at a proper multiple, up to [limit], of a
    cell reached by the scan. *)
Lemma scan_store_indices (stray : Z -> option Z) (fuel : nat) (n limit count i : Z)
      (buf : list Z) (idx v : Z) :
  0 <= limit < 2 ^ 30 - 1 -> 2 <= i ->
  In (EvStore idx v) (fst (scan stray fuel n limit count i buf)) ->
  idx <= limit /\ exists p m, i <= p /\ 2 <= m /\ idx = m * p.
Proof.
  intros Hl. revert count i buf.
  assert (HL1 : wrap (limit + 1) = limit + 1)
    by (apply wrap_small; unfold INT_MIN, INT_MAX; lia).
  induction fuel as [|fuel IH]; intros count i buf Hi; [intros []|].
  rewrite scan_S, HL1.
  destruct (Z.leb_spec i (limit + 1)) as [Hle | Hgt]; [|intros []].
  assert (Hw : wrap (i + 1) = i + 1)
    by (apply wrap_small; unfold INT_MIN, INT_MAX; lia).
  assert (Hw2 : wrap (i * 2) = i * 2)
    by (apply wrap_small; unfold INT_MIN, INT_MAX; lia).
  rewrite Hw, Hw2.
  assert (Hrec : forall c b,
    In (EvStore idx v) (fst (scan stray fuel n limit c (i + 1) b)) ->
    idx <= limit /\ exists p m, i <= p /\ 2 <= m /\ idx = m * p).
  { intros c b Hin. destruct (IH c (i + 1) b ltac:(lia) Hin) as (H1 & p & m & Hp & Hm & E).
    split; [exact H1|]. exists p, m. split; [lia|]. split; assumption. }
  assert (Hmark : In (EvStore idx v) (fst (mark_multiples fuel limit i (i * 2) buf)) ->
    idx <= limit /\ exists p m, i <= p /\ 2 <= m /\ idx = m * p).
  { intros Hin.
    apply mark_multiples_indices in Hin; [| lia | lia | unfold INT_MAX; lia].
    destruct Hin as (H1 & m & Hm & ->).
    split; [exact H1|]. exists i, (m + 2). split; [lia|]. split; lia. }
  destruct (load stray buf i) as [b|].
  - destruct (b =? 0).
    + destruct (count =? n).
      * simpl. intros [E | []]. discriminate.
      * destruct (mark_multiples fuel limit i (i * 2) buf) as [t [buf'| |]].
        -- specialize (Hrec (wrap (count + 1)) buf').
           destruct (scan stray fuel n limit (wrap (count + 1)) (i + 1) buf') as [t' r].
           simpl in *. intros [E | Hin]; [discriminate|].
           apply in_app_or in Hin. destruct Hin as [Hin | Hin]; auto.
        -- simpl in *. intros [E | Hin]; [discriminate | auto].
        -- simpl in *. intros [E | Hin]; [discriminate | auto].
    + specialize (Hrec count buf).
      destruct (scan stray fuel n limit count (i + 1) buf) as [t' r].
      simpl in *. intros [E | Hin]; [discriminate | auto].
  - simpl. intros [E | []]. discriminate.
Qed.

Lemma proper_multiple_not_prime (p m : Z) : 2 <= p -> 2 <= m -> ~ prime_number (m * p).
Proof.
  intros Hp Hm [_ H].
  destruct (H p ltac:(lia) ltac:(exists m; reflexivity)) as [E | E]; nia.
Qed.

(** ** The estimate beyond [int] *)

Lemma ln_2_pow_28 (x : R) : (IZR (2 ^ 28) <= x -> 14 < ln x)%R.
Proof.
  intros Hx. apply ln_lower.
  replace 14%R with (INR 14 * 1)%R by (simpl; lra).
  rewrite exp_mult_nat.
  apply Rle_lt_trans with (3 ^ 14)%R.
  - apply pow_incr. split; [left; apply exp_pos | left; apply exp_1_lt_3].
  - eapply Rlt_le_trans; [|exact Hx].
    change (2 ^ 28) with 268435456. lra.
Qed.

(** X6: from [n = 2 ^ 28] on the estimate of line 9 is above [INT_MAX]
    ([n * log(n) >= 14 n > 2 ^ 31]): no [int] holds it, and its conversion
    to [int] on that line is out of range. *)
Theorem estimate_has_no_int_from_2_pow_28 (n : Z) :
  2 ^ 28 <= n -> INT_MAX < bound_estimate n.
Proof.
  intros Hn. unfold bound_estimate.
  assert (Hx : (IZR (2 ^ 28) <= IZR n)%R) by (apply IZR_le; exact Hn).
  assert (H14 := ln_2_pow_28 _ Hx).
  assert (H0 : (0 < ln (ln (IZR n)))%R).
  { rewrite <- ln_1. apply ln_increasing; lra. }
  apply Z.lt_le_trans with (INT_MAX + 1); [lia|]. apply ceil_lower.
  change (2 ^ 28) with 268435456 in Hx.
  change INT_MAX with 2147483647.
  revert Hx H14 H0. generalize (IZR n), (ln (ln (IZR n))). intros x l Hx.
  generalize (ln x). intros y Hy Hl. nra.
Qed.

Lemma estimate_has_no_int_from_2_pow_28_witness : INT_MAX < bound_estimate INT_MAX.
Proof.
  apply estimate_has_no_int_from_2_pow_28. unfold INT_MAX. lia.
Defined.

(** ** The function on the indices it serves *)

(** X1: for every [n] from 4 to 10000, when the allocation succeeds, the
    call returns the [n]-th prime, whatever a load outside the block would
    give. *)
Theorem returns_nth_prime_from_4_to_10000
        (heap_grants : Z -> bool) (stray : Z -> option Z) (fuel : nat)
        (n : Z) (buf : list Z) :
  4 <= n <= 10000 ->
  calloc heap_grants (wrap (bound_estimate n + 1)) 1 = Some buf ->
  (Z.to_nat (2 * bound_estimate n) + 4 <= fuel)%nat ->
  exists p, prime_number p /\ pi p = n /\
            snd (sieve_of_eratosthenes heap_grants stray fuel n) = Val (Return p).
Proof.
  intros Hn Hc Hfuel.
  destruct (nth_prime_4_to_10000 heap_grants stray fuel n buf Hn Hc Hfuel)
    as (p & [Hp Hr] & E).
  exists p. split; [exact Hp|]. split; [exact Hr | exact E].
Qed.

Lemma returns_nth_prime_from_4_to_10000_witness :
  exists p, prime_number p /\ pi p = 4 /\
            snd (sieve_of_eratosthenes always trap 100 4) = Val (Return p).
Proof.
  assert (Hle := bound_estimate_le 4 ltac:(lia)).
  assert (H1 := bound_estimate_pos 4 ltac:(lia)).
  apply (returns_nth_prime_from_4_to_10000 always trap 100 4
           (repeat 0 (Z.to_nat (bound_estimate 4 + 1)))).
  - lia.
  - apply calloc_always. unfold INT_MAX. lia.
  - lia.
Defined.

(** X2: for every [n] from 4 to 10000, every load and every store of the
    call is at a cell of the block, [0 .. limit]. *)
Theorem accesses_inside_block_from_4_to_10000
        (heap_grants : Z -> bool) (stray : Z -> option Z) (fuel : nat)
        (n : Z) (buf : list Z) (e : event) :
  4 <= n <= 10000 ->
  calloc heap_grants (wrap (bound_estimate n + 1)) 1 = Some buf ->
  In e (fst (sieve_of_eratosthenes heap_grants stray fuel n)) ->
  within_block (bound_estimate n) e /\
  Z.of_nat (length buf) = bound_estimate n + 1.
Proof.
  intros Hn Hc Hin.
  assert (Hle := bound_estimate_le n ltac:(lia)).
  assert (H1 := bound_estimate_pos n ltac:(lia)).
  split.
  - assert (H := within_block_4_to_10000 heap_grants stray fuel n buf Hn Hc).
    rewrite Forall_forall in H. apply H. exact Hin.
  - eapply calloc_length; [|exact Hc]. unfold INT_MAX. nia.
Qed.

Lemma accesses_inside_block_from_4_to_10000_witness :
  within_block (bound_estimate 4) (EvLoad 2) /\
  Z.of_nat (length (repeat 0 (Z.to_nat (bound_estimate 4 + 1)))) = bound_estimate 4 + 1.
Proof.
  assert (Hle := bound_estimate_le 4 ltac:(lia)).
  assert (H1 := bound_estimate_mono 3 4 ltac:(lia)).
  rewrite bound_estimate_3 in H1.
  assert (Hc : calloc always (wrap (bound_estimate 4 + 1)) 1 =
               Some (repeat 0 (Z.to_nat (bound_estimate 4 + 1))))
    by (apply calloc_always; unfold INT_MAX; lia).
  apply (accesses_inside_block_from_4_to_10000 always trap 1 4
           (repeat 0 (Z.to_nat (bound_estimate 4 + 1)))); [lia | exact Hc |].
  rewrite sieve_of_eratosthenes_body by (unfold INT_MAX; lia).
  unfold sieve_body. rewrite Hc. rewrite scan_S.
  rewrite wrap_small by (unfold INT_MIN, INT_MAX; lia).
  replace (2 <=? bound_estimate 4 + 1) with true by (symmetry; apply Z.leb_le; lia).
  rewrite load_inside by (rewrite repeat_length, Z2Nat.id; lia).
  rewrite nth_repeat. simpl. right. left. reflexivity.
Defined.

(** X3: where a load outside the block traps, a call never returns a wrong
    value: whatever the allocator does and for every [n] whose estimate is
    below [INT_MAX], a value that is returned is the [n]-th prime. *)
Theorem never_a_wrong_value_when_trapping
        (heap_grants : Z -> bool) (stray : Z -> option Z) (fuel : nat) (n v : Z) :
  (forall k, stray k = None) ->
  1 <= n <= INT_MAX -> bound_estimate n < INT_MAX ->
  snd (sieve_of_eratosthenes heap_grants stray fuel n) = Val (Return v) ->
  prime_number v /\ pi v = n.
Proof.
  intros Hs Hn Hb E.
  apply (returned_when_trapping heap_grants stray fuel n v Hs Hn Hb E).
Qed.

Lemma never_a_wrong_value_when_trapping_witness : prime_number 13 /\ pi 13 = 6.
Proof.
  apply (never_a_wrong_value_when_trapping always trap 148 6 13).
  - reflexivity.
  - unfold INT_MAX. lia.
  - assert (H6 := bound_estimate_6). unfold INT_MAX. lia.
  - apply (sixth_prime trap 0).
Defined.

(** ** The function on every index *)

Lemma loads_In (t : list event) (idx : Z) : In idx (loads t) <-> In (EvLoad idx) t.
Proof.
  induction t as [|e t IH]; [reflexivity|].
  destruct e; simpl; rewrite IH; split; intros H;
    try (right; exact H); try (destruct H as [E | H]; [discriminate | exact H]).
  - destruct H as [-> | H]; [now left | now right].
  - destruct H as [[= ->] | H]; [now left | now right].
Qed.

Lemma upfrom_In (lo : Z) (k : nat) (x : Z) :
  In x (upfrom lo k) <-> lo <= x < lo + Z.of_nat k.
Proof.
  revert lo. induction k as [|k IH]; intros lo; simpl; [lia|].
  rewrite IH. lia.
Qed.

(** A run that stops at an access outside the block has that access as an
    event. *)
Lemma mark_multiples_fault (fuel : nat) (limit i j : Z) (buf : list Z) (u : ub) :
  snd (mark_multiples fuel limit i j buf) = Undef u ->
  exists idx, u = OutOfBounds idx /\
              In (EvStore idx 1) (fst (mark_multiples fuel limit i j buf)).
Proof.
  revert j buf. induction fuel as [|fuel IH]; intros j buf; [discriminate|].
  rewrite mark_multiples_S. destruct (j <=? limit); [|discriminate].
  destruct (store buf j 1) as [buf1|].
  - specialize (IH (wrap (j + i)) buf1).
    destruct (mark_multiples fuel limit i (wrap (j + i)) buf1) as [t r].
    simpl in *. intros E. destruct (IH E) as (idx & -> & Hin).
    exists idx. split; [reflexivity | now right].
  - simpl. intros [= <-]. exists j. split; [reflexivity | now left].
Qed.

Lemma scan_fault (stray : Z -> option Z) (fuel : nat) (n limit count i : Z)
      (buf : list Z) (u : ub) :
  snd (scan stray fuel n limit count i buf) = Undef u ->
  exists idx, u = OutOfBounds idx /\
    (In (EvLoad idx) (fst (scan stray fuel n limit count i buf)) \/
     In (EvStore idx 1) (fst (scan stray fuel n limit count i buf))).
Proof.
  revert count i buf. induction fuel as [|fuel IH]; intros count i buf; [discriminate|].
  rewrite scan_S. destruct (i <=? wrap (limit + 1)); [|discriminate].
  destruct (load stray buf i) as [b|].
  - destruct (b =? 0).
    + destruct (count =? n); [discriminate|].
      assert (Hm := mark_multiples_fault fuel limit i (wrap (i * 2)) buf).
      destruct (mark_multiples fuel limit i (wrap (i * 2)) buf) as [t [buf'| u' |]].
      * specialize (IH (wrap (count + 1)) (wrap (i + 1)) buf').
        destruct (scan stray fuel n limit (wrap (count + 1)) (wrap (i + 1)) buf')
          as [t' r].
        simpl in *. intros E. destruct (IH E) as (idx & -> & [Hin | Hin]);
          exists idx; (split; [reflexivity|]); [left | right];
          right; apply in_or_app; now right.
      * simpl in *. intros [= <-]. destruct (Hm u' eq_refl) as (idx & -> & Hin).
        exists idx. split; [reflexivity|]. right. now right.
      * discriminate.
    + specialize (IH count (wrap (i + 1)) buf).
      destruct (scan stray fuel n limit count (wrap (i + 1)) buf) as [t' r].
      simpl in *. intros E. destruct (IH E) as (idx & -> & [Hin | Hin]);
        exists idx; (split; [reflexivity|]); [left | right]; now right.
  - simpl. intros [= <-]. exists i. split; [reflexivity|]. left. now left.
Qed.

(** X4: for every [n], whenever the estimate reaches the [n]-th prime and
    is below [2 ^ 30 - 1], the call returns the [n]-th prime, which is at
    most the estimate, and every access is inside the block. *)
Theorem right_and_inside_block_when_estimate_reaches
        (heap_grants : Z -> bool) (stray : Z -> option Z) (fuel : nat)
        (n : Z) (buf : list Z) :
  2 <= n <= INT_MAX -> bound_estimate n < 2 ^ 30 - 1 ->
  calloc heap_grants (wrap (bound_estimate n + 1)) 1 = Some buf ->
  (Z.to_nat (2 * bound_estimate n) + 4 <= fuel)%nat ->
  n <= pi (bound_estimate n) ->
  (exists p, prime_number p /\ pi p = n /\ p <= bound_estimate n /\
             snd (sieve_of_eratosthenes heap_grants stray fuel n) = Val (Return p)) /\
  Forall (within_block (bound_estimate n))
         (fst (sieve_of_eratosthenes heap_grants stray fuel n)).
Proof.
  intros Hn Hb Hc Hfuel Hpi.
  assert (H1 := bound_estimate_pos n ltac:(lia)).
  rewrite sieve_of_eratosthenes_body by (unfold INT_MAX; lia).
  split.
  - destruct (sieve_body_found heap_grants stray fuel n (bound_estimate n) buf)
      as (p & [Hp Hr] & Hle & E); [lia | lia | exact Hc | exact Hfuel | exact Hpi |].
    exists p. repeat (split; [assumption|]). exact E.
  - apply (sieve_body_within heap_grants stray fuel n (bound_estimate n) buf);
      [lia | lia | exact Hc | exact Hpi].
Qed.

Lemma right_and_inside_block_when_estimate_reaches_witness :
  (exists p, prime_number p /\ pi p = 6 /\ p <= bound_estimate 6 /\
             snd (sieve_of_eratosthenes always trap 148 6) = Val (Return p)) /\
  Forall (within_block (bound_estimate 6))
         (fst (sieve_of_eratosthenes always trap 148 6)).
Proof.
  assert (H6 := bound_estimate_6).
  apply (right_and_inside_block_when_estimate_reaches always trap 148 6
           (repeat 0 (Z.to_nat (bound_estimate 6 + 1)))).
  - unfold INT_MAX. lia.
  - lia.
  - apply calloc_always. unfold INT_MAX. lia.
  - lia.
  - apply Z.le_trans with (pi 13); [vm_compute; discriminate | apply pi_mono; lia].
Defined.

(** X5: for every [n], whenever the estimate is below the [n]-th prime (and
    below [2 ^ 30 - 1]), the call loads the cell after the block, and that
    load decides the outcome: the run stops there when the load traps;
    otherwise the call returns [limit + 1] when the byte found is 0 and one
    prime is missing, and [limit + 2] in every other case. *)
Theorem loads_past_block_when_estimate_is_short
        (heap_grants : Z -> bool) (stray : Z -> option Z) (fuel : nat)
        (n : Z) (buf : list Z) :
  2 <= n <= INT_MAX -> bound_estimate n < 2 ^ 30 - 1 ->
  calloc heap_grants (wrap (bound_estimate n + 1)) 1 = Some buf ->
  (Z.to_nat (2 * bound_estimate n) + 4 <= fuel)%nat ->
  pi (bound_estimate n) < n ->
  Z.of_nat (length buf) = bound_estimate n + 1 /\
  In (EvLoad (bound_estimate n + 1))
     (fst (sieve_of_eratosthenes heap_grants stray fuel n)) /\
  snd (sieve_of_eratosthenes heap_grants stray fuel n) =
  match stray (bound_estimate n + 1) with
  | None => Undef (OutOfBounds (bound_estimate n + 1))
  | Some b =>
      if (b =? 0) && (1 + pi (bound_estimate n) =? n)
      then Val (Return (bound_estimate n + 1))
      else Val (Return (bound_estimate n + 2))
  end.
Proof.
  intros Hn Hb Hc Hfuel Hpi.
  assert (H1 := bound_estimate_pos n ltac:(lia)).
  split; [eapply calloc_length; [|exact Hc]; unfold INT_MAX; lia|].
  rewrite sieve_of_eratosthenes_body by (unfold INT_MAX; lia).
  set (limit := bound_estimate n) in *.
  destruct (sieve_body_beyond heap_grants stray fuel n limit buf)
    as [Hs E]; [lia | lia | exact Hc | exact Hfuel | exact Hpi |].
  split; [|exact E].
  assert (Hscan : In (EvLoad (limit + 1)) (fst (scan stray fuel n limit 1 2 buf))).
  { assert (HL1 : wrap (limit + 1) = limit + 1)
      by (apply wrap_small; unfold INT_MIN, INT_MAX; lia).
    destruct (scan_loads stray fuel n limit 1 2 buf) as (k & Hk & Hv);
      [unfold INT_MIN; lia | rewrite HL1; unfold INT_MAX; lia |].
    assert (Hval : forall e v, past_end stray n limit = Val (e, v) ->
              v - 2 + match e with Break => 1 | Exhausted => 0 end = limit).
    { unfold past_end. destruct (stray (limit + 1)) as [b|]; [|discriminate].
      destruct ((b =? 0) && (1 + pi limit =? n)); intros e v [= <- <-]; lia. }
    destruct (past_end stray n limit) as [[e v]| u |] eqn:Ep.
    - apply loads_In. rewrite Hk. apply upfrom_In.
      rewrite (Hv e v Hs), (Hval e v eq_refl). lia.
    - destruct (scan_fault stray fuel n limit 1 2 buf u Hs) as (idx & -> & [Hin | Hin]).
      + replace (limit + 1) with idx; [exact Hin|].
        revert Ep. unfold past_end. destruct (stray (limit + 1)) as [b|].
        * destruct ((b =? 0) && (1 + pi limit =? n)); discriminate.
        * now intros [= <-].
      + exfalso. apply scan_store_indices in Hin; [| lia | lia].
        revert Ep. unfold past_end. destruct (stray (limit + 1)) as [b|].
        * destruct ((b =? 0) && (1 + pi limit =? n)); discriminate.
        * intros [= <-]. lia.
    - exfalso. revert Ep. unfold past_end. destruct (stray (limit + 1)) as [b|].
      + destruct ((b =? 0) && (1 + pi limit =? n)); discriminate.
      + discriminate. }
  unfold sieve_body. rewrite Hc.
  destruct (scan stray fuel n limit 1 2 buf) as [t [[e i]| |]]; simpl in *.
  - right. apply in_or_app. now left.
  - now right.
  - now right.
Qed.

Lemma loads_past_block_when_estimate_is_short_witness :
  Z.of_nat (length (repeat 0 5)) = bound_estimate 3 + 1 /\
  In (EvLoad (bound_estimate 3 + 1))
     (fst (sieve_of_eratosthenes always (fun _ => Some 0) 12 3)) /\
  snd (sieve_of_eratosthenes always (fun _ => Some 0) 12 3) =
  (if (0 =? 0) && (1 + pi (bound_estimate 3) =? 3)
   then Val (Return (bound_estimate 3 + 1))
   else Val (Return (bound_estimate 3 + 2))).
Proof.
  apply (loads_past_block_when_estimate_is_short always (fun _ => Some 0) 12 3
           (repeat 0 5)).
  - unfold INT_MAX. lia.
  - rewrite bound_estimate_3. lia.
  - rewrite bound_estimate_3. reflexivity.
  - rewrite bound_estimate_3. simpl. lia.
  - rewrite bound_estimate_3. vm_compute. reflexivity.
Defined.

(** ** The events of a call *)

(** X7: from [n = 2] on, the block is released exactly when the call
    returns, and then the events are the allocation of [limit + 1] cells,
    loads and stores of 1, and the release as the last event: no access
    comes after it and nothing is released twice. *)
Theorem block_released_exactly_on_return
        (heap_grants : Z -> bool) (stray : Z -> option Z) (fuel : nat) (n : Z) :
  2 <= n ->
  (In EvFree (fst (sieve_of_eratosthenes heap_grants stray fuel n)) <->
   exists v, snd (sieve_of_eratosthenes heap_grants stray fuel n) = Val (Return v)) /\
  (forall v, snd (sieve_of_eratosthenes heap_grants stray fuel n) = Val (Return v) ->
   exists t,
     fst (sieve_of_eratosthenes heap_grants stray fuel n) =
       EvCalloc (wrap (bound_estimate n + 1)) 1 :: t ++ [EvFree] /\
     Forall (fun e => (exists idx, e = EvLoad idx) \/ (exists idx, e = EvStore idx 1)) t).
Proof.
  intros Hn. unfold sieve_of_eratosthenes.
  replace (n <=? 1) with false by (symmetry; apply Z.leb_gt; lia).
  destruct (double_to_int (bound_estimate n)) as [limit|] eqn:E.
  2:{ split; [split; [intros [] | intros [v H]; discriminate] | discriminate]. }
  apply double_to_int_inv in E. destruct E as [-> _].
  unfold sieve_body.
  destruct (calloc heap_grants (wrap (bound_estimate n + 1)) 1) as [buf|].
  2:{ split; [split|]; [| intros [v H]; discriminate | discriminate].
      simpl. intros [H | [H | [H | []]]]; discriminate. }
  assert (Ht := scan_trace stray fuel n (bound_estimate n) 1 2 buf).
  assert (Hno : ~ In EvFree (fst (scan stray fuel n (bound_estimate n) 1 2 buf))).
  { intros Hin. rewrite Forall_forall in Ht.
    destruct (Ht _ Hin) as [[k H] | [k H]]; discriminate. }
  destruct (scan stray fuel n (bound_estimate n) 1 2 buf) as [t [[e i]| u |]];
    simpl in *.
  - split; [split|].
    + intros _. now exists i.
    + intros _. right. apply in_or_app. right. now left.
    + intros v _. exists t. split; [reflexivity | exact Ht].
  - split; [split|]; [| intros [v H]; discriminate | discriminate].
    intros [H | H]; [discriminate | contradiction].
  - split; [split|]; [| intros [v H]; discriminate | discriminate].
    intros [H | H]; [discriminate | contradiction].
Qed.

Lemma block_released_exactly_on_return_witness :
  (In EvFree (fst (sieve_of_eratosthenes always (fun _ => Some 1) 12 3)) <->
   exists v, snd (sieve_of_eratosthenes always (fun _ => Some 1) 12 3) = Val (Return v)) /\
  (forall v, snd (sieve_of_eratosthenes always (fun _ => Some 1) 12 3) = Val (Return v) ->
   exists t,
     fst (sieve_of_eratosthenes always (fun _ => Some 1) 12 3) =
       EvCalloc (wrap (bound_estimate 3 + 1)) 1 :: t ++ [EvFree] /\
     Forall (fun e => (exists idx, e = EvLoad idx) \/ (exists idx, e = EvStore idx 1)) t).
Proof.
  apply block_released_exactly_on_return. lia.
Defined.

(** X8: from [n = 2] on, and while the estimate is below [2 ^ 30 - 1],
    every store of the call is inside the block, at a cell from 4 on whose
    index is a proper multiple and hence no prime: outside its block the
    call only ever reads. *)
Theorem stores_only_at_composite_cells
        (heap_grants : Z -> bool) (stray : Z -> option Z) (fuel : nat)
        (n idx v : Z) :
  2 <= n -> bound_estimate n < 2 ^ 30 - 1 ->
  In (EvStore idx v) (fst (sieve_of_eratosthenes heap_grants stray fuel n)) ->
  4 <= idx <= bound_estimate n /\ ~ prime_number idx /\ v = 1.
Proof.
  intros Hn Hb Hin.
  assert (H1 := bound_estimate_pos n Hn).
  assert (Hv := sieve_of_eratosthenes_stores heap_grants stray fuel n idx v Hin).
  rewrite sieve_of_eratosthenes_body in Hin by (unfold INT_MAX; lia).
  unfold sieve_body in Hin.
  assert (Hscan : forall buf,
    In (EvStore idx v) (fst (scan stray fuel n (bound_estimate n) 1 2 buf)) ->
    4 <= idx <= bound_estimate n /\ ~ prime_number idx /\ v = 1).
  { intros buf H. apply scan_store_indices in H; [| lia | lia].
    destruct H as (Hle & p & m & Hp & Hm & ->).
    split; [nia|]. split; [apply proper_multiple_not_prime; lia | exact Hv]. }
  destruct (calloc heap_grants (wrap (bound_estimate n + 1)) 1) as [buf|].
  - specialize (Hscan buf).
    destruct (scan stray fuel n (bound_estimate n) 1 2 buf) as [t [[e i]| u |]];
      simpl in *.
    + destruct Hin as [E | Hin]; [discriminate|].
      apply in_app_or in Hin. destruct Hin as [Hin | [E | []]];
        [exact (Hscan Hin) | discriminate].
    + destruct Hin as [E | Hin]; [discriminate | exact (Hscan Hin)].
    + destruct Hin as [E | Hin]; [discriminate | exact (Hscan Hin)].
  - simpl in Hin. destruct Hin as [E | [E | [E | []]]]; discriminate.
Qed.

Lemma stores_only_at_composite_cells_witness :
  4 <= 4 <= bound_estimate 3 /\ ~ prime_number 4 /\ 1 = 1.
Proof.
  apply (stores_only_at_composite_cells always trap 12 3 4 1).
  - lia.
  - rewrite bound_estimate_3. lia.
  - rewrite sieve_of_eratosthenes_body;
      rewrite ?bound_estimate_3; [| lia | unfold INT_MAX; lia].
    vm_compute. right. right. left. reflexivity.
Defined.

(** X9: from [n = 2] on, the cells are loaded in ascending order from cell
    2, each once and none skipped; when the call returns, the last cell
    loaded is the value returned, or, when the scan ran to its end, the cell
    before it, which is then cell [limit + 1]. *)
Theorem cells_loaded_in_order
        (heap_grants : Z -> bool) (stray : Z -> option Z) (fuel : nat) (n : Z) :
  2 <= n -> bound_estimate n < INT_MAX - 1 ->
  exists k,
    loads (fst (sieve_of_eratosthenes heap_grants stray fuel n)) = upfrom 2 k /\
    forall v, snd (sieve_of_eratosthenes heap_grants stray fuel n) = Val (Return v) ->
      Z.of_nat k = v - 1 \/ (Z.of_nat k = v - 2 /\ v = bound_estimate n + 2).
Proof.
  intros Hn Hb.
  assert (H1 := bound_estimate_pos n Hn).
  rewrite sieve_of_eratosthenes_body by lia.
  unfold sieve_body.
  assert (HL1 : wrap (bound_estimate n + 1) = bound_estimate n + 1)
    by (apply wrap_small; unfold INT_MIN; lia).
  destruct (calloc heap_grants (wrap (bound_estimate n + 1)) 1) as [buf|].
  2:{ exists O. split; [reflexivity | discriminate]. }
  destruct (scan_loads stray fuel n (bound_estimate n) 1 2 buf) as (k & Hk & Hv);
    [unfold INT_MIN; lia | lia |].
  assert (Hs := scan_bound stray fuel n (bound_estimate n) 1 2 buf).
  destruct (scan stray fuel n (bound_estimate n) 1 2 buf) as [t [[e i]| u |]];
    simpl in *; exists k.
  - split; [rewrite loads_app, Hk; simpl; apply app_nil_r|].
    intros v [= <-]. specialize (Hv e i eq_refl).
    destruct (Hs e i ltac:(unfold INT_MIN; lia) eq_refl) as (_ & He & _).
    destruct e; [left; lia | right].
    specialize (He eq_refl). rewrite HL1 in He. lia.
  - split; [exact Hk | discriminate].
  - split; [exact Hk | discriminate].
Qed.

Lemma cells_loaded_in_order_witness :
  exists k,
    loads (fst (sieve_of_eratosthenes always (fun _ => Some 1) 12 3)) = upfrom 2 k /\
    forall v, snd (sieve_of_eratosthenes always (fun _ => Some 1) 12 3) = Val (Return v) ->
      Z.of_nat k = v - 1 \/ (Z.of_nat k = v - 2 /\ v = bound_estimate 3 + 2).
Proof.
  apply cells_loaded_in_order; [lia|].
  rewrite bound_estimate_3. reflexivity.
Defined.

(** ** The estimate of line 9 *)

(** X10: the estimate grows with [n], is at least 1 from [n = 2] on and at
    most [2 n ^ 2]; so the block asked for has between 2 and [2 n ^ 2 + 1]
    cells, and for [n] up to 23170 the estimate is below [2 ^ 30 - 1]. *)
Theorem estimate_grows_and_is_bounded (a n : Z) :
  2 <= a <= n ->
  1 <= bound_estimate a <= bound_estimate n /\
  bound_estimate n <= 2 * n * n /\
  (n <= 23170 -> bound_estimate n < 2 ^ 30 - 1).
Proof.
  intros Han.
  assert (H1 := bound_estimate_pos a ltac:(lia)).
  assert (H2 := bound_estimate_mono a n Han).
  assert (H3 := bound_estimate_le n ltac:(lia)).
  split; [lia|]. split; [exact H3|]. intros Hn. nia.
Qed.

Lemma estimate_grows_and_is_bounded_witness :
  1 <= bound_estimate 2 <= bound_estimate 3 /\
  bound_estimate 3 <= 2 * 3 * 3 /\
  (3 <= 23170 -> bound_estimate 3 < 2 ^ 30 - 1).
Proof.
  apply estimate_grows_and_is_bounded. lia.
Defined.

(** X11: the estimate is at least the [n]-th prime for every [n] from 4 to
    10000 (there are at least [n] primes up to it), and it is not for 2 and
    for 3, where it is 1 and 4. *)
Theorem estimate_reaches_nth_prime_from_4_to_10000 (n : Z) :
  4 <= n <= 10000 ->
  n <= pi (bound_estimate n) /\
  pi (bound_estimate 2) < 2 /\ pi (bound_estimate 3) < 3.
Proof.
  intros Hn. split; [apply estimate_reaches_prime; exact Hn|].
  rewrite bound_estimate_2, bound_estimate_3. split; reflexivity.
Qed.

Lemma estimate_reaches_nth_prime_from_4_to_10000_witness :
  10000 <= pi (bound_estimate 10000) /\
  pi (bound_estimate 2) < 2 /\ pi (bound_estimate 3) < 3.
Proof.
  apply estimate_reaches_nth_prime_from_4_to_10000. lia.
Defined.

(** ** The marking loop of line 22 *)

(** X12: when [limit + i] is within [int], the marking loop entered at
    [j >= 0] completes; the block keeps its size, and the cells set
    afterwards are those set before and the cells [j], [j + i], [j + 2 i],
    ... up to [limit]. *)
Theorem marking_loop_sets_the_multiples
        (fuel : nat) (limit i j : Z) (buf : list Z) :
  1 <= i -> 0 <= j <= INT_MAX -> 0 <= limit -> limit + i <= INT_MAX ->
  Z.of_nat (length buf) = limit + 1 ->
  Z.max 0 (limit - j + 1) < Z.of_nat fuel ->
  exists buf',
    snd (mark_multiples fuel limit i j buf) = Val buf' /\
    Z.of_nat (length buf') = limit + 1 /\
    forall k, 0 <= k <= limit ->
      (nth (Z.to_nat k) buf' 0 <> 0 <->
       nth (Z.to_nat k) buf 0 <> 0 \/ exists m, 0 <= m /\ k = j + m * i).
Proof.
  intros Hi Hj Hl Hov Hlen Hfuel.
  destruct (mark_multiples_total fuel limit i j buf) as [buf' E];
    [exact Hi | lia | exact Hov | exact Hlen | exact Hfuel |].
  exists buf'. split; [exact E|].
  apply (mark_multiples_val fuel limit i j buf buf');
    [lia | lia | unfold INT_MIN; lia | exact Hlen | exact E].
Qed.

Lemma marking_loop_sets_the_multiples_witness :
  exists buf',
    snd (mark_multiples 6 9 3 6 (repeat 0 10)) = Val buf' /\
    Z.of_nat (length buf') = 9 + 1 /\
    forall k, 0 <= k <= 9 ->
      (nth (Z.to_nat k) buf' 0 <> 0 <->
       nth (Z.to_nat k) (repeat 0 10) 0 <> 0 \/ exists m, 0 <= m /\ k = 6 + m * 3).
Proof.
  apply marking_loop_sets_the_multiples.
  - lia.
  - unfold INT_MAX. lia.
  - lia.
  - unfold INT_MAX. lia.
  - reflexivity.
  - simpl. lia.
Defined.

(** X13: from a clear cell [i >= 2 ^ 30] inside the block, with the count
    not yet at [n], [i * 2] is beyond [int]: the wrapped value is negative
    and the first store of the marking loop is before the block. *)
Theorem doubling_overflows_from_2_pow_30
        (stray : Z -> option Z) (fuel : nat) (n limit count i : Z) (buf : list Z) :
  2 ^ 30 <= i <= limit -> limit < INT_MAX ->
  Z.of_nat (length buf) = limit + 1 ->
  nth (Z.to_nat i) buf 0 = 0 -> count <> n ->
  i * 2 - 2 ^ 32 < 0 /\
  scan stray (S (S fuel)) n limit count i buf =
  ([EvLoad i; EvStore (i * 2 - 2 ^ 32) 1], Undef (OutOfBounds (i * 2 - 2 ^ 32))).
Proof.
  intros Hi Hl Hlen Hb Hc. unfold INT_MAX in Hl. split; [lia|].
  assert (Hw : wrap (i * 2) = i * 2 - 2 ^ 32).
  { unfold wrap. replace (i * 2 + 2 ^ 31) with ((i * 2 - 2 ^ 31) + 1 * 2 ^ 32) by lia.
    rewrite Z.mod_add by lia. rewrite Z.mod_small by lia. lia. }
  rewrite scan_S.
  rewrite wrap_small by (unfold INT_MIN, INT_MAX; lia).
  replace (i <=? limit + 1) with true by (symmetry; apply Z.leb_le; lia).
  rewrite load_inside by lia. rewrite Hb. simpl (0 =? 0). cbv iota.
  replace (count =? n) with false by (symmetry; apply Z.eqb_neq; exact Hc).
  rewrite mark_multiples_S, Hw.
  replace (i * 2 - 2 ^ 32 <=? limit) with true by (symmetry; apply Z.leb_le; lia).
  rewrite store_none by lia. reflexivity.
Qed.

Lemma doubling_overflows_from_2_pow_30_witness :
  2 ^ 30 * 2 - 2 ^ 32 < 0 /\
  scan trap 2 0 (2 ^ 30) 1 (2 ^ 30) (repeat 0 (Z.to_nat (2 ^ 30 + 1))) =
  ([EvLoad (2 ^ 30); EvStore (2 ^ 30 * 2 - 2 ^ 32) 1],
   Undef (OutOfBounds (2 ^ 30 * 2 - 2 ^ 32))).
Proof.
  apply (doubling_overflows_from_2_pow_30 trap 0 0 (2 ^ 30) 1 (2 ^ 30)).
  - lia.
  - unfold INT_MAX. lia.
  - rewrite repeat_length. apply Z2Nat.id. lia.
  - apply nth_repeat.
  - discriminate.
Defined.

(** ** The results as a sequence *)

(** X14: where loads outside the block are tolerated and the allocator
    grants every request, the results for the indices 1 to 10000 grow
    strictly with the index, whatever the stray bytes are. *)
Theorem results_grow_with_the_index_when_tolerated
        (stray : Z -> option Z) (fuel : nat) (a b : Z) :
  (forall k, stray k <> None) -> 1 <= a < b -> b <= 10000 ->
  (Z.to_nat (2 * bound_estimate b) + 12 <= fuel)%nat ->
  exists va vb,
    snd (sieve_of_eratosthenes always stray fuel a) = Val (Return va) /\
    snd (sieve_of_eratosthenes always stray fuel b) = Val (Return vb) /\
    va < vb.
Proof.
  intros Hs Hab Hb Hfuel.
  assert (H : forall d b', Z.of_nat d = b' - a - 1 -> b' <= b ->
            exists va vb,
              snd (sieve_of_eratosthenes always stray fuel a) = Val (Return va) /\
              snd (sieve_of_eratosthenes always stray fuel b') = Val (Return vb) /\
              va < vb).
  { induction d as [|d IH]; intros b' Hd Hb'.
    - replace b' with (a + 1) by lia.
      apply increasing_when_tolerated; [exact Hs | lia |].
      assert (Hm := bound_estimate_mono (a + 1) b ltac:(lia)).
      assert (H1 := bound_estimate_pos (a + 1) ltac:(lia)). lia.
    - destruct (IH (b' - 1) ltac:(lia) ltac:(lia)) as (va & vm & Ea & Em & Hlt).
      destruct (increasing_when_tolerated stray fuel (b' - 1) Hs) as (vm' & vb & Em' & Eb & Hlt').
      + lia.
      + replace (b' - 1 + 1) with b' by lia.
        assert (Hm := bound_estimate_mono b' b ltac:(lia)).
        assert (H1 := bound_estimate_pos b' ltac:(lia)). lia.
      + replace (b' - 1 + 1) with b' in Eb by lia.
        rewrite Em in Em'. injection Em' as <-.
        exists va, vb. split; [exact Ea|]. split; [exact Eb | lia]. }
  apply (H (Z.to_nat (b - a - 1)) b); lia.
Qed.

Lemma results_grow_with_the_index_when_tolerated_witness :
  exists va vb,
    snd (sieve_of_eratosthenes always (fun _ => Some 1) 20 1) = Val (Return va) /\
    snd (sieve_of_eratosthenes always (fun _ => Some 1) 20 3) = Val (Return vb) /\
    va < vb.
Proof.
  apply results_grow_with_the_index_when_tolerated.
  - intros k. discriminate.
  - lia.
  - lia.
  - rewrite bound_estimate_3. simpl. lia.
Defined.

(** ** The error path *)

(** X15: from [n = 2] on, the call ends in [exit] exactly when [calloc]
    fails, the status then is 1, and only then is anything written to
    stderr: the estimate, then the fixed message. *)
Theorem exits_exactly_when_allocation_fails
        (heap_grants : Z -> bool) (stray : Z -> option Z) (fuel : nat) (n : Z) :
  2 <= n -> bound_estimate n <= INT_MAX ->
  (signals_error (snd (sieve_of_eratosthenes heap_grants stray fuel n)) <->
   calloc heap_grants (wrap (bound_estimate n + 1)) 1 = None) /\
  (forall status,
     snd (sieve_of_eratosthenes heap_grants stray fuel n) = Val (Exit status) ->
     status = 1) /\
  (forall e, In e (fst (sieve_of_eratosthenes heap_grants stray fuel n)) ->
     (exists limit, e = EvStderrLimit limit) \/ (exists msg, e = EvStderr msg) ->
     calloc heap_grants (wrap (bound_estimate n + 1)) 1 = None /\
     (e = EvStderrLimit (bound_estimate n) \/ e = EvStderr alloc_failed_msg)).
Proof.
  intros Hn Hb. rewrite sieve_of_eratosthenes_body by assumption.
  unfold sieve_body, signals_error.
  destruct (calloc heap_grants (wrap (bound_estimate n + 1)) 1) as [buf|].
  - assert (Ht := scan_trace stray fuel n (bound_estimate n) 1 2 buf).
    rewrite Forall_forall in Ht.
    assert (Hno : forall e,
      In e (fst (scan stray fuel n (bound_estimate n) 1 2 buf)) ->
      (exists limit, e = EvStderrLimit limit) \/ (exists msg, e = EvStderr msg) ->
      False).
    { intros e Hin Hst. destruct (Ht e Hin) as [[k ->] | [k ->]];
        destruct Hst as [[l H] | [m H]]; discriminate. }
    destruct (scan stray fuel n (bound_estimate n) 1 2 buf) as [t [[e i]| u |]];
      simpl in *.
    + split; [split; [intros [s H]; discriminate | discriminate]|].
      split; [discriminate|].
      intros e' [<- | Hin] Hst.
      * destruct Hst as [[l H] | [m H]]; discriminate.
      * apply in_app_or in Hin. destruct Hin as [Hin | [<- | []]].
        -- destruct (Hno e' Hin Hst).
        -- destruct Hst as [[l H] | [m H]]; discriminate.
    + split; [split; [intros [s H]; discriminate | discriminate]|].
      split; [discriminate|].
      intros e' [<- | Hin] Hst.
      * destruct Hst as [[l H] | [m H]]; discriminate.
      * destruct (Hno e' Hin Hst).
    + split; [split; [intros [s H]; discriminate | discriminate]|].
      split; [discriminate|].
      intros e' [<- | Hin] Hst.
      * destruct Hst as [[l H] | [m H]]; discriminate.
      * destruct (Hno e' Hin Hst).
  - simpl. split; [split; [reflexivity | intros _; now exists 1]|].
    split; [now intros status [= <-]|].
    intros e [<- | [<- | [<- | []]]] Hst; (split; [reflexivity|]).
    + destruct Hst as [[l H] | [m H]]; discriminate.
    + now left.
    + now right.
Qed.

Lemma exits_exactly_when_allocation_fails_witness :
  (signals_error (snd (sieve_of_eratosthenes never trap 0 3)) <->
   calloc never (wrap (bound_estimate 3 + 1)) 1 = None) /\
  (forall status,
     snd (sieve_of_eratosthenes never trap 0 3) = Val (Exit status) -> status = 1) /\
  (forall e, In e (fst (sieve_of_eratosthenes never trap 0 3)) ->
     (exists limit, e = EvStderrLimit limit) \/ (exists msg, e = EvStderr msg) ->
     calloc never (wrap (bound_estimate 3 + 1)) 1 = None /\
     (e = EvStderrLimit (bound_estimate 3) \/ e = EvStderr alloc_failed_msg)).
Proof.
  apply exits_exactly_when_allocation_fails; [lia|].
  rewrite bound_estimate_3. vm_compute. discriminate.
Defined.

(** ** The binding *)

(** X16: [sieve] computes with whatever [i] holds after the call of
    [PyArg_ParseTuple], whose answer it does not look at: the parsed [int]
    when the argument tuple parses, the value [i] held before when it does
    not.  With [n] that content, from 4 to 10000, and the allocation
    succeeding, the events are those of [sieve_of_eratosthenes] on [n] and
    the object returned is [PyLong_FromLong] of the [n]-th prime. *)
Theorem sieve_hands_over_the_nth_prime
        (heap_grants : Z -> bool) (stray : Z -> option Z) (PyObject : Type)
        (PyArg_ParseTuple_i : PyObject -> option Z) (PyLong_FromLong : Z -> PyObject)
        (fuel : nat) (i0 : Z) (self args : PyObject) (n : Z) :
  PyArg_ParseTuple_i args = Some n \/ (PyArg_ParseTuple_i args = None /\ i0 = n) ->
  4 <= n <= 10000 ->
  calloc heap_grants (wrap (bound_estimate n + 1)) 1 <> None ->
  (Z.to_nat (2 * bound_estimate n) + 4 <= fuel)%nat ->
  exists p, prime_number p /\ pi p = n /\
    sieve heap_grants stray PyObject PyArg_ParseTuple_i PyLong_FromLong
      fuel i0 self args =
    (fst (sieve_of_eratosthenes heap_grants stray fuel n),
     Val (PyReturn (PyLong_FromLong p))).
Proof.
  intros Hparse Hn Hc Hfuel.
  assert (Hi : match PyArg_ParseTuple_i args with Some v => v | None => i0 end = n).
  { destruct Hparse as [-> | [-> ->]]; reflexivity. }
  unfold sieve. rewrite Hi.
  destruct (calloc heap_grants (wrap (bound_estimate n + 1)) 1) as [buf|] eqn:Ec;
    [|contradiction].
  destruct (nth_prime_4_to_10000 heap_grants stray fuel n buf Hn Ec Hfuel)
    as (p & [Hp Hr] & E).
  exists p. split; [exact Hp|]. split; [exact Hr|].
  destruct (sieve_of_eratosthenes heap_grants stray fuel n) as [t r].
  simpl in E. subst r. reflexivity.
Qed.

Lemma sieve_hands_over_the_nth_prime_witness :
  exists p, prime_number p /\ pi p = 4 /\
    sieve always trap Z (fun _ => None) (fun v => v) 100 4 0 0 =
    (fst (sieve_of_eratosthenes always trap 100 4), Val (PyReturn p)).
Proof.
  assert (Hle := bound_estimate_le 4 ltac:(lia)).
  assert (H1 := bound_estimate_pos 4 ltac:(lia)).
  apply (sieve_hands_over_the_nth_prime always trap Z (fun _ => None)
           (fun v => v) 100 4 0 0 4).
  - right. split; reflexivity.
  - lia.
  - rewrite calloc_always by (unfold INT_MAX; lia). discriminate.
  - lia.
Defined.
